(** * VoiceTools: the ignore/VIP list store and the voice-state policy evaluator

    A shallow embedding of [voicetools/voicetools.py] (the [VoiceTools] cog)
    and the properties its specification states about it.

    - Part 1 embeds the per-guild configuration and the administrative
      commands that mutate the five id lists.
    - Part 2 embeds the two listing commands.
    - Part 3 embeds the voice-state listener ([on_voice_state_update],
      [_vip_check], [_forcelimit_check]) as a computation that talks to
      the host; the host decides the outcome of every call. *)

From stdpp Require Import base option list strings pretty.
From Stdlib Require Import ZArith Lia Ascii.

Local Open Scope Z_scope.

(** ** Part 1: the guild configuration and the list commands *)

(** The record registered by [VoiceTools.__init__] with
    [config.register_guild]. Ids are Python ints. *)
Record GuildConf := mkGuildConf {
  forcelimit_enabled : bool;
  forcelimit_ignore_member_list : list Z;
  forcelimit_ignore_role_list : list Z;
  forcelimit_ignore_vc_list : list Z;
  vip_enabled : bool;
  vip_member_list : list Z;
  vip_role_list : list Z
}.

Definition default_guild : GuildConf :=
  {| forcelimit_enabled := false;
     forcelimit_ignore_member_list := [];
     forcelimit_ignore_role_list := [];
     forcelimit_ignore_vc_list := [];
     vip_enabled := false;
     vip_member_list := [];
     vip_role_list := [] |}.

(** Modelled from the spec: the converters [MemberOrRoleorVoiceChannel] and
    [MemberOrRole] of [voicetools/converters.py] are not part of the sources;
    per the spec they resolve a command argument, once, into a tagged value
    (member, role or, for the ignore list only, voice channel). A value
    carries the id of the resolved object and the text Python's [str] gives
    for it (used in the messages). *)
Inductive MemberOrRoleorVoiceChannel :=
| IgnoreMember (id : Z) (str : string)
| IgnoreRole (id : Z) (str : string)
| IgnoreVoiceChannel (id : Z) (str : string).

Inductive MemberOrRole :=
| VipMember (id : Z) (str : string)
| VipRole (id : Z) (str : string).

Definition ignore_id (ignore : MemberOrRoleorVoiceChannel) : Z :=
  match ignore with
  | IgnoreMember id _ | IgnoreRole id _ | IgnoreVoiceChannel id _ => id
  end.

Definition ignore_str (ignore : MemberOrRoleorVoiceChannel) : string :=
  match ignore with
  | IgnoreMember _ s | IgnoreRole _ s | IgnoreVoiceChannel _ s => s
  end.

Definition vip_id (vip : MemberOrRole) : Z :=
  match vip with VipMember id _ | VipRole id _ => id end.

Definition vip_str (vip : MemberOrRole) : string :=
  match vip with VipMember _ s | VipRole _ s => s end.

(** Python's [list.remove(x)]: deletes the first occurrence of [x];
    [None] stands for the [ValueError] raised when there is none. *)
Fixpoint list_remove (x : Z) (l : list Z) : option (list Z) :=
  match l with
  | [] => None
  | y :: l' =>
      if decide (x = y) then Some l'
      else match list_remove x l' with
           | Some r => Some (y :: r)
           | None => None
           end
  end.

(** The local variables of [forcelimit_add] / [forcelimit_remove]: the three
    lists read from the config; [ignore_list] in the loop body is an alias of
    one of them, so a mutation through it lands in that list. *)
Record IgnoreLocals := mkIgnoreLocals {
  ignore_member_list : list Z;
  ignore_role_list : list Z;
  ignore_vc_list : list Z
}.

Inductive IgnoreAlias := AliasRole | AliasMember | AliasVc.

(** [isinstance(ignore, discord.Role)], [elif isinstance(ignore,
    discord.Member)], [else]. *)
Definition ignore_alias (ignore : MemberOrRoleorVoiceChannel) : IgnoreAlias :=
  match ignore with
  | IgnoreRole _ _ => AliasRole
  | IgnoreMember _ _ => AliasMember
  | IgnoreVoiceChannel _ _ => AliasVc
  end.

Definition ignore_deref (a : IgnoreAlias) (loc : IgnoreLocals) : list Z :=
  match a with
  | AliasRole => ignore_role_list loc
  | AliasMember => ignore_member_list loc
  | AliasVc => ignore_vc_list loc
  end.

Definition ignore_assign (a : IgnoreAlias) (l : list Z) (loc : IgnoreLocals)
  : IgnoreLocals :=
  match a with
  | AliasRole => mkIgnoreLocals (ignore_member_list loc) l (ignore_vc_list loc)
  | AliasMember => mkIgnoreLocals l (ignore_role_list loc) (ignore_vc_list loc)
  | AliasVc => mkIgnoreLocals (ignore_member_list loc) (ignore_role_list loc) l
  end.

Definition read_ignore (conf : GuildConf) : IgnoreLocals :=
  mkIgnoreLocals (forcelimit_ignore_member_list conf)
                 (forcelimit_ignore_role_list conf)
                 (forcelimit_ignore_vc_list conf).

Definition write_ignore (loc : IgnoreLocals) (conf : GuildConf) : GuildConf :=
  {| forcelimit_enabled := forcelimit_enabled conf;
     forcelimit_ignore_member_list := ignore_member_list loc;
     forcelimit_ignore_role_list := ignore_role_list loc;
     forcelimit_ignore_vc_list := ignore_vc_list loc;
     vip_enabled := vip_enabled conf;
     vip_member_list := vip_member_list conf;
     vip_role_list := vip_role_list conf |}.

(** A command returns the stored configuration and the messages it sent with
    [ctx.send], oldest first. Delivery of a message is the host's business
    and is not modelled: every [ctx.send] is taken to return. *)
Definition Response (A : Type) : Type := A * list string.

(** One iteration of [for ignore in ignores] in [forcelimit_add]. *)
Definition forcelimit_add_body (st : Response IgnoreLocals)
    (ignore : MemberOrRoleorVoiceChannel) : Response IgnoreLocals :=
  let ignore_list := ignore_deref (ignore_alias ignore) st.1 in
  if bool_decide (ignore_id ignore ∉ ignore_list) then
    (ignore_assign (ignore_alias ignore) (ignore_list ++ [ignore_id ignore]) st.1,
     st.2)
  else
    (st.1, st.2 ++ [ignore_str ignore +:+ " is already on ignore list"]).

Definition forcelimit_add (conf : GuildConf)
    (ignores : list MemberOrRoleorVoiceChannel) : Response GuildConf :=
  let st := foldl forcelimit_add_body (read_ignore conf, []) ignores in
  (write_ignore st.1 conf, st.2 ++ ["Ignore list updated"]).

(** One iteration of the loop of [forcelimit_remove]: the [try] around
    [ignore_list.remove] turns the [ValueError] into a message. *)
Definition forcelimit_remove_body (st : Response IgnoreLocals)
    (ignore : MemberOrRoleorVoiceChannel) : Response IgnoreLocals :=
  let ignore_list := ignore_deref (ignore_alias ignore) st.1 in
  match list_remove (ignore_id ignore) ignore_list with
  | Some l => (ignore_assign (ignore_alias ignore) l st.1, st.2)
  | None => (st.1, st.2 ++ [ignore_str ignore +:+ " is not on ignore list"])
  end.

Definition forcelimit_remove (conf : GuildConf)
    (ignores : list MemberOrRoleorVoiceChannel) : Response GuildConf :=
  let st := foldl forcelimit_remove_body (read_ignore conf, []) ignores in
  (write_ignore st.1 conf, st.2 ++ ["Ignore list updated"]).

(** The same for the two VIP lists. *)
Record VipLocals := mkVipLocals {
  loc_vip_member_list : list Z;
  loc_vip_role_list : list Z
}.

Inductive VipAlias := VAliasRole | VAliasMember.

(** [isinstance(vip, discord.Role)], [else]. *)
Definition vip_alias (vip : MemberOrRole) : VipAlias :=
  match vip with
  | VipRole _ _ => VAliasRole
  | VipMember _ _ => VAliasMember
  end.

Definition vip_deref (a : VipAlias) (loc : VipLocals) : list Z :=
  match a with
  | VAliasRole => loc_vip_role_list loc
  | VAliasMember => loc_vip_member_list loc
  end.

Definition vip_assign (a : VipAlias) (l : list Z) (loc : VipLocals) : VipLocals :=
  match a with
  | VAliasRole => mkVipLocals (loc_vip_member_list loc) l
  | VAliasMember => mkVipLocals l (loc_vip_role_list loc)
  end.

Definition read_vip (conf : GuildConf) : VipLocals :=
  mkVipLocals (vip_member_list conf) (vip_role_list conf).

Definition write_vip (loc : VipLocals) (conf : GuildConf) : GuildConf :=
  {| forcelimit_enabled := forcelimit_enabled conf;
     forcelimit_ignore_member_list := forcelimit_ignore_member_list conf;
     forcelimit_ignore_role_list := forcelimit_ignore_role_list conf;
     forcelimit_ignore_vc_list := forcelimit_ignore_vc_list conf;
     vip_enabled := vip_enabled conf;
     vip_member_list := loc_vip_member_list loc;
     vip_role_list := loc_vip_role_list loc |}.

Definition vip_add_body (st : Response VipLocals) (vip : MemberOrRole)
  : Response VipLocals :=
  let vip_list := vip_deref (vip_alias vip) st.1 in
  if bool_decide (vip_id vip ∉ vip_list) then
    (vip_assign (vip_alias vip) (vip_list ++ [vip_id vip]) st.1, st.2)
  else
    (st.1, st.2 ++ [vip_str vip +:+ " is already on list"]).

Definition vip_add (conf : GuildConf) (vips : list MemberOrRole)
  : Response GuildConf :=
  let st := foldl vip_add_body (read_vip conf, []) vips in
  (write_vip st.1 conf, st.2 ++ ["VIP list updated"]).

Definition vip_remove_body (st : Response VipLocals) (vip : MemberOrRole)
  : Response VipLocals :=
  let vip_list := vip_deref (vip_alias vip) st.1 in
  match list_remove (vip_id vip) vip_list with
  | Some l => (vip_assign (vip_alias vip) l st.1, st.2)
  | None => (st.1, st.2 ++ [vip_str vip +:+ " is not on list"])
  end.

Definition vip_remove (conf : GuildConf) (vips : list MemberOrRole)
  : Response GuildConf :=
  let st := foldl vip_remove_body (read_vip conf, []) vips in
  (write_vip st.1 conf, st.2 ++ ["VIP list updated"]).

(** The four toggles. *)
Definition set_forcelimit_enabled (b : bool) (conf : GuildConf) : GuildConf :=
  {| forcelimit_enabled := b;
     forcelimit_ignore_member_list := forcelimit_ignore_member_list conf;
     forcelimit_ignore_role_list := forcelimit_ignore_role_list conf;
     forcelimit_ignore_vc_list := forcelimit_ignore_vc_list conf;
     vip_enabled := vip_enabled conf;
     vip_member_list := vip_member_list conf;
     vip_role_list := vip_role_list conf |}.

Definition set_vip_enabled (b : bool) (conf : GuildConf) : GuildConf :=
  {| forcelimit_enabled := forcelimit_enabled conf;
     forcelimit_ignore_member_list := forcelimit_ignore_member_list conf;
     forcelimit_ignore_role_list := forcelimit_ignore_role_list conf;
     forcelimit_ignore_vc_list := forcelimit_ignore_vc_list conf;
     vip_enabled := b;
     vip_member_list := vip_member_list conf;
     vip_role_list := vip_role_list conf |}.

Definition forcelimit_enable (conf : GuildConf) : Response GuildConf :=
  if negb (forcelimit_enabled conf) then
    (set_forcelimit_enabled true conf,
     ["ForceLimit module is now enabled on this server"])
  else (conf, ["ForceLimit module is already enabled on this server"]).

Definition forcelimit_disable (conf : GuildConf) : Response GuildConf :=
  if forcelimit_enabled conf then
    (set_forcelimit_enabled false conf,
     ["ForceLimit module is now disabled on this server"])
  else (conf, ["ForceLimit module is already disabled on this server"]).

Definition vip_enable (conf : GuildConf) : Response GuildConf :=
  if negb (vip_enabled conf) then
    (set_vip_enabled true conf, ["VIP module is now enabled on this server"])
  else (conf, ["VIP module is already enabled on this server"]).

Definition vip_disable (conf : GuildConf) : Response GuildConf :=
  if vip_enabled conf then
    (set_vip_enabled false conf, ["VIP module is now disabled on this server"])
  else (conf, ["VIP module is already disabled on this server"]).

(** The commands that change the stored configuration, and a session of
    them run in order against one guild. *)
Inductive Command :=
| CmdForcelimitEnable
| CmdForcelimitDisable
| CmdForcelimitIgnore (ignores : list MemberOrRoleorVoiceChannel)
| CmdForcelimitUnignore (ignores : list MemberOrRoleorVoiceChannel)
| CmdVipEnable
| CmdVipDisable
| CmdVipAdd (vips : list MemberOrRole)
| CmdVipRemove (vips : list MemberOrRole).

Definition run_command (conf : GuildConf) (c : Command) : GuildConf :=
  match c with
  | CmdForcelimitEnable => (forcelimit_enable conf).1
  | CmdForcelimitDisable => (forcelimit_disable conf).1
  | CmdForcelimitIgnore ignores => (forcelimit_add conf ignores).1
  | CmdForcelimitUnignore ignores => (forcelimit_remove conf ignores).1
  | CmdVipEnable => (vip_enable conf).1
  | CmdVipDisable => (vip_disable conf).1
  | CmdVipAdd vips => (vip_add conf vips).1
  | CmdVipRemove vips => (vip_remove conf vips).1
  end.

Definition run_commands (conf : GuildConf) (cs : list Command) : GuildConf :=
  foldl run_command conf cs.

(** The five lists of a configuration hold no id twice. *)
Definition lists_NoDup (conf : GuildConf) : Prop :=
  NoDup (forcelimit_ignore_member_list conf) ∧
  NoDup (forcelimit_ignore_role_list conf) ∧
  NoDup (forcelimit_ignore_vc_list conf) ∧
  NoDup (vip_member_list conf) ∧
  NoDup (vip_role_list conf).

(** The same for the local variables of the add and remove commands. *)
Definition locals_NoDup (loc : IgnoreLocals) : Prop :=
  NoDup (ignore_member_list loc) ∧ NoDup (ignore_role_list loc)
  ∧ NoDup (ignore_vc_list loc).

Definition vip_locals_NoDup (loc : VipLocals) : Prop :=
  NoDup (loc_vip_member_list loc) ∧ NoDup (loc_vip_role_list loc).

(** ** Part 2: the listing commands *)

(** What the listing needs of [ctx.guild]: the ids its cache resolves, and
    which of its members carry a nickname (the host mentions them
    differently). [get_member], [get_role] and [get_channel] give the object
    for an id, or [None]. *)
Record Guild := mkGuild {
  guild_members : list Z;
  guild_nicknamed : list Z;
  guild_roles : list Z;
  guild_channels : list Z
}.

Inductive Mentionable :=
| AMember (id : Z) (nick : bool)
| ARole (id : Z)
| AChannel (id : Z).

Definition get_member (g : Guild) (id : Z) : option Mentionable :=
  if bool_decide (id ∈ guild_members g)
  then Some (AMember id (bool_decide (id ∈ guild_nicknamed g)))
  else None.

Definition get_role (g : Guild) (id : Z) : option Mentionable :=
  if bool_decide (id ∈ guild_roles g) then Some (ARole id) else None.

Definition get_channel (g : Guild) (id : Z) : option Mentionable :=
  if bool_decide (id ∈ guild_channels g) then Some (AChannel id) else None.

(** The host's mention syntax for the three kinds of object; a member
    with a nickname is mentioned with an exclamation mark. *)
Definition mention (m : Mentionable) : string :=
  match m with
  | AMember id nick => (if nick then "<@!" else "<@") +:+ pretty id +:+ ">"
  | ARole id => "<@&" +:+ pretty id +:+ ">"
  | AChannel id => "<#" +:+ pretty id +:+ ">"
  end.

(** [sep.join(parts)]. *)
Fixpoint join (sep : string) (parts : list string) : string :=
  match parts with
  | [] => ""
  | [p] => p
  | p :: rest => p +:+ sep +:+ join sep rest
  end.

(** [", ".join([m.mention for m in map(get, ids)])]: reading [.mention] of
    the [None] that [get] returns for an id it does not know raises
    [AttributeError]; [None] here stands for that exception. *)
Definition content_of (get : Z → option Mentionable) (ids : list Z)
  : option string :=
  ms ← mapM get ids; Some (join ", " (mention <$> ms)).

(** [itertools.zip_longest(..., fillvalue=fill)] over three and two lists of
    pages: as many tuples as the longest list has pages. *)
Definition page_at (fill : string) (pages : list string) (i : nat) : string :=
  default fill (pages !! i).

Definition zip_longest3 (fill : string) (a b c : list string)
  : list (string * string * string) :=
  (λ i, (page_at fill a i, page_at fill b i, page_at fill c i))
    <$> seq 0 ((length a `max` length b) `max` length c).

Definition zip_longest2 (fill : string) (a b : list string)
  : list (string * string) :=
  (λ i, (page_at fill a i, page_at fill b i))
    <$> seq 0 (length a `max` length b).

Record Embed := mkEmbed {
  title : string;
  colour : Z;
  fields : list (string * string);
  footer : string
}.

(** How a listing command ends: one plain message, the paginated menu, or
    the [AttributeError] above, which the command does not catch. *)
Inductive Listing :=
| Send (msg : string)
| Menu (embed_pages : list Embed)
| AttributeError.

Definition page_footer (num total : nat) : string :=
  "Page " +:+ pretty num +:+ "/" +:+ pretty total.

Section Listing.
(** [redbot.core.utils.chat_formatting.pagify(text, page_length=n)],
    a function of the host framework; the development is parametric
    in it. *)
Variable pagify : string → nat → list string.
(** [await ctx.embed_colour()]. *)
Variable embed_colour : Z.

Definition ignore_embed (len_pages : nat) (idx : nat)
    (page : string * string * string) : Embed :=
  {| title := "Ignore List";
     colour := embed_colour;
     fields := [("Members", page.1.1); ("Roles", page.1.2);
                ("Voice channels", page.2)];
     footer := page_footer idx len_pages |}.

Definition forcelimit_ignorelist (g : Guild) (conf : GuildConf) : Listing :=
  match content_of (get_member g) (forcelimit_ignore_member_list conf) with
  | None => AttributeError
  | Some content_members =>
  match content_of (get_role g) (forcelimit_ignore_role_list conf) with
  | None => AttributeError
  | Some content_roles =>
  match content_of (get_channel g) (forcelimit_ignore_vc_list conf) with
  | None => AttributeError
  | Some content_vcs =>
    let pages_members := pagify content_members 1024 in
    let pages_roles := pagify content_roles 1024 in
    let pages_vcs := pagify content_vcs 1024 in
    if bool_decide (length pages_members = length pages_roles)
       && bool_decide (length pages_roles = length pages_vcs)
       && bool_decide (length pages_vcs = 0%nat)
    then Send "Ignore list is empty"
    else
      let pages := zip_longest3 "None" pages_members pages_roles pages_vcs in
      let len_pages := length pages in
      Menu (imap (λ i page, ignore_embed len_pages (S i) page) pages)
  end end end.

Definition vip_embed (len_pages : nat) (idx : nat) (page : string * string)
  : Embed :=
  {| title := "VIP List";
     colour := embed_colour;
     fields := [("Members", page.1); ("Roles", page.2)];
     footer := page_footer idx len_pages |}.

Definition vip_list (g : Guild) (conf : GuildConf) : Listing :=
  match content_of (get_member g) (vip_member_list conf) with
  | None => AttributeError
  | Some content_members =>
  match content_of (get_role g) (vip_role_list conf) with
  | None => AttributeError
  | Some content_roles =>
    let pages_members := pagify content_members 1024 in
    let pages_roles := pagify content_roles 1024 in
    if bool_decide (length pages_members = length pages_roles)
       && bool_decide (length pages_roles = 0%nat)
    then Send "VIP list is empty"
    else
      let pages := zip_longest2 "None" pages_members pages_roles in
      let len_pages := length pages in
      Menu (imap (λ i page, vip_embed len_pages (S i) page) pages)
  end end.
End Listing.

(** ** Part 3: the voice-state listener *)

(** The objects of a voice-state event. The host keeps one channel object
    per channel id, so Python's [is] on two channel objects is decided by
    their ids. [members] is what [channel.members] gives when the listener
    reads it; [guild_id], [default_role] and [me] are what it reads of
    [channel.guild]. *)
Record VoiceChannel := mkVoiceChannel {
  channel_id : Z;
  user_limit : Z;
  members : list Z;
  guild_id : Z;
  default_role : Z;
  me : Z
}.

Record VoiceState := mkVoiceState { channel : option VoiceChannel }.

Record Member := mkMember {
  member_id : Z;
  roles : list Z
}.

(** [a is not b] for the two [channel] attributes ([None] is one object). *)
Definition is_not (a b : option VoiceChannel) : bool :=
  match a, b with
  | None, None => false
  | Some x, Some y => bool_decide (channel_id x ≠ channel_id y)
  | _, _ => true
  end.

(** The calls the listener makes to the host. [overwrites] lists, for the
    temporary channel, the target of each permission overwrite with its
    [read_messages] value. *)
Inductive HostCall :=
| ChannelEdit (channel_id : Z) (user_limit : Z)
| CreateVoiceChannel (guild_id : Z) (name : string) (overwrites : list (Z * bool))
| MoveTo (member_id : Z) (channel_id : Z)
| ChannelDelete (channel_id : Z).

Inductive HostError := NotFound | Forbidden | HTTPException.

(** What the host answers: the call returns (for [CreateVoiceChannel] with
    the id of the new channel; the value is not read for the other calls),
    or it raises. *)
Inductive Answer :=
| Returned (value : Z)
| Raised (e : HostError).

(** What an evaluation leaves behind, oldest first: every host call with its
    answer, and every [log.info] line. *)
Inductive Entry :=
| Called (c : HostCall) (a : Answer)
| LogInfo (msg : string).

(** The host: it answers a call knowing everything that happened before.
    Nothing is assumed about it. *)
Definition Host : Type := list Entry → HostCall → Answer.

Inductive Result (A : Type) :=
| Done (a : A)
| Failed (e : HostError).
Arguments Done {A} a.
Arguments Failed {A} e.

(** A computation of the listener: it extends the trace and either returns
    or stops with the exception a host call raised. Nothing in the listener
    catches such an exception. *)
Definition Eval (A : Type) : Type := Host → list Entry → list Entry * Result A.

#[global] Instance Eval_ret : MRet Eval := λ A a _ tr, (tr, Done a).

#[global] Instance Eval_bind : MBind Eval := λ A B f m host tr,
  match m host tr with
  | (tr', Done a) => f a host tr'
  | (tr', Failed e) => (tr', Failed e)
  end.

Definition call (c : HostCall) : Eval Z := λ host tr,
  match host tr c with
  | Returned v => (tr ++ [Called c (Returned v)], Done v)
  | Raised e => (tr ++ [Called c (Raised e)], Failed e)
  end.

Definition log_info (msg : string) : Eval unit := λ _ tr,
  (tr ++ [LogInfo msg], Done tt).

(** [await channel.edit(user_limit=n)]: when the call returns, the channel
    object carries the new limit (the forcelimit group's docstring relies on
    it: with the VIP module, a VIP going over the limit is not kicked). *)
Definition edit (c : VoiceChannel) (n : Z) : Eval VoiceChannel :=
  call (ChannelEdit (channel_id c) n);;
  mret (mkVoiceChannel (channel_id c) n (members c) (guild_id c)
                       (default_role c) (me c)).

(** [role.id in vip_role_list] and the like. *)
Definition on_list (l : list Z) (id : Z) : bool := bool_decide (id ∈ l).

(** The [before.channel] leg of [_vip_check]. *)
Definition vip_leave (vip_id : Z) (vip_type : string) (vs : VoiceState)
  : Eval VoiceState :=
  match channel vs with
  | Some c =>
      if bool_decide (user_limit c ≠ 0) then
        c' ← edit c (user_limit c - 1);
        log_info ("VIP with ID " +:+ pretty vip_id +:+ " (" +:+ vip_type +:+ ") "
                  +:+ "left voice channel with ID " +:+ pretty (channel_id c)
                  +:+ ", lowering user limit!");;
        mret (mkVoiceState (Some c'))
      else mret vs
  | None => mret vs
  end.

(** The [after.channel] leg of [_vip_check] (its log line says "left" in the
    source, too). *)
Definition vip_join (vip_id : Z) (vip_type : string) (vs : VoiceState)
  : Eval VoiceState :=
  match channel vs with
  | Some c =>
      if bool_decide (user_limit c ≠ 0) then
        c' ← edit c (user_limit c + 1);
        log_info ("VIP with ID " +:+ pretty vip_id +:+ " (" +:+ vip_type +:+ ") "
                  +:+ "left voice channel with ID " +:+ pretty (channel_id c)
                  +:+ ", raising user limit!");;
        mret (mkVoiceState (Some c'))
      else mret vs
  | None => mret vs
  end.

(** [_vip_check]. It returns the two voice states as it leaves them: the
    edits happen only when the two channels are distinct objects, so an edit
    of one never shows in the other. *)
Definition _vip_check (conf : GuildConf) (member : Member)
    (before after : VoiceState) : Eval (VoiceState * VoiceState) :=
  if is_not (channel before) (channel after) then
    let member_on_list := on_list (vip_member_list conf) (member_id member) in
    let role_list := filter (λ r, on_list (vip_role_list conf) r = true)
                            (roles member) in
    if member_on_list || bool_decide (role_list ≠ []) then
      let vip_id := if member_on_list then member_id member
                    else default 0 (head role_list) in
      let vip_type := if member_on_list then "member" else "role" in
      before' ← vip_leave vip_id vip_type before;
      after' ← vip_join vip_id vip_type after;
      mret (before', after')
    else mret (before, after)
  else mret (before, after).

Definition temporary_channel_name : string :=
  "Temporary Channel (ForceLimit Module)".

(** The exemption test of [_forcelimit_check]. *)
Definition ignored (conf : GuildConf) (member : Member) (c : VoiceChannel)
  : bool :=
  on_list (forcelimit_ignore_member_list conf) (member_id member)
  || existsb (on_list (forcelimit_ignore_role_list conf)) (roles member)
  || on_list (forcelimit_ignore_vc_list conf) (channel_id c).

(** [len(channel.members) > channel.user_limit] behind the two guards. *)
Definition over_limit (c : VoiceChannel) : bool :=
  bool_decide (user_limit c ≠ 0)
  && bool_decide (Z.of_nat (length (members c)) > user_limit c).

Definition _forcelimit_check (conf : GuildConf) (member : Member)
    (before after : VoiceState) : Eval unit :=
  match channel after with
  | Some c =>
      if over_limit c then
        if ignored conf member c then mret tt
        else
          vc ← call (CreateVoiceChannel (guild_id c) temporary_channel_name
                       [(default_role c, false); (me c, true)]);
          call (MoveTo (member_id member) vc);;
          call (ChannelDelete vc);;
          log_info ("Member with ID " +:+ pretty (member_id member)
                    +:+ " joined voice channel with ID " +:+ pretty (channel_id c)
                    +:+ " exceeding its limit, disconnecting!")
      else mret tt
  | None => mret tt
  end.

(** The VIP half of [on_voice_state_update]. *)
Definition vip_step (conf : GuildConf) (member : Member)
    (before after : VoiceState) : Eval (VoiceState * VoiceState) :=
  if vip_enabled conf then _vip_check conf member before after
  else mret (before, after).

(** The ForceLimit half of [on_voice_state_update]. *)
Definition forcelimit_step (conf : GuildConf) (member : Member)
    (before after : VoiceState) : Eval unit :=
  if forcelimit_enabled conf then _forcelimit_check conf member before after
  else mret tt.

Definition on_voice_state_update (conf : GuildConf) (member : Member)
    (before after : VoiceState) : Eval unit :=
  '(before', after') ← vip_step conf member before after;
  forcelimit_step conf member before' after'.

(** Running the listener on one event, from an empty trace. *)
Definition evaluate (host : Host) (conf : GuildConf) (member : Member)
    (before after : VoiceState) : list Entry * Result unit :=
  on_voice_state_update conf member before after host [].

(** *** Reading a trace *)

Definition host_calls (tr : list Entry) : list HostCall :=
  omap (λ e, match e with Called c _ => Some c | LogInfo _ => None end) tr.

(** The capacity adjustments an evaluation issued: (channel, new limit). *)
Definition capacity_actions (tr : list Entry) : list (Z * Z) :=
  omap (λ e, match e with
             | Called (ChannelEdit c n) _ => Some (c, n)
             | _ => None
             end) tr.

Definition is_create (c : HostCall) : bool :=
  match c with CreateVoiceChannel _ _ _ => true | _ => false end.

(** The forced disconnects an evaluation started: one per temporary channel
    it asked the host for. *)
Definition force_disconnects (tr : list Entry) : list HostCall :=
  filter (λ c, is_create c = true) (host_calls tr).

(** The members an evaluation asked the host to move. *)
Definition moved_members (tr : list Entry) : list Z :=
  omap (λ c, match c with MoveTo m _ => Some m | _ => None end) (host_calls tr).

(** The temporary channels the host created in a trace, and the channels
    whose deletion the listener asked for. *)
Definition created_channels (tr : list Entry) : list Z :=
  omap (λ e, match e with
             | Called (CreateVoiceChannel _ _ _) (Returned vc) => Some vc
             | _ => None
             end) tr.

Definition delete_requests (tr : list Entry) : list Z :=
  omap (λ c, match c with ChannelDelete vc => Some vc | _ => None end)
       (host_calls tr).

(** A host call of the trace raised. *)
Definition raised (tr : list Entry) : bool :=
  existsb (λ e, match e with Called _ (Raised _) => true | _ => false end) tr.

(** *** The five lists by category (used to state the properties) *)

Inductive Category :=
| IgnoreMembers | IgnoreRoles | IgnoreVoiceChannels | VipMembers | VipRoles.

Definition get_list (k : Category) (conf : GuildConf) : list Z :=
  match k with
  | IgnoreMembers => forcelimit_ignore_member_list conf
  | IgnoreRoles => forcelimit_ignore_role_list conf
  | IgnoreVoiceChannels => forcelimit_ignore_vc_list conf
  | VipMembers => vip_member_list conf
  | VipRoles => vip_role_list conf
  end.

Definition ignore_category (ignore : MemberOrRoleorVoiceChannel) : Category :=
  match ignore with
  | IgnoreMember _ _ => IgnoreMembers
  | IgnoreRole _ _ => IgnoreRoles
  | IgnoreVoiceChannel _ _ => IgnoreVoiceChannels
  end.

Definition vip_category (vip : MemberOrRole) : Category :=
  match vip with
  | VipMember _ _ => VipMembers
  | VipRole _ _ => VipRoles
  end.

(** *** Vocabulary of the properties of the listener *)

Definition answer_result (a : Answer) : Result Z :=
  match a with Returned v => Done v | Raised e => Failed e end.

(** Source and destination are the same channel (or the member is in no
    channel before and after). *)
Definition same_channel (before after : VoiceState) : Prop :=
  match channel before, channel after with
  | None, None => True
  | Some x, Some y => channel_id x = channel_id y
  | _, _ => False
  end.

(** The member is a VIP: by id, or by a role it holds. *)
Definition vip_qualifies (conf : GuildConf) (member : Member) : Prop :=
  member_id member ∈ vip_member_list conf
  ∨ ∃ r, r ∈ roles member ∧ r ∈ vip_role_list conf.

(** The member is exempt from ForceLimit in channel [c]. *)
Definition exempted (conf : GuildConf) (member : Member) (c : VoiceChannel)
  : Prop :=
  member_id member ∈ forcelimit_ignore_member_list conf
  ∨ (∃ r, r ∈ roles member ∧ r ∈ forcelimit_ignore_role_list conf)
  ∨ channel_id c ∈ forcelimit_ignore_vc_list conf.

(** The capacity adjustment owed for the channel left, and for the channel
    entered: none for no channel and for an unlimited one. *)
Definition leave_adjustment (before : VoiceState) : list (Z * Z) :=
  match channel before with
  | Some x =>
      if bool_decide (user_limit x ≠ 0) then [(channel_id x, user_limit x - 1)]
      else []
  | None => []
  end.

Definition join_adjustment (after : VoiceState) : list (Z * Z) :=
  match channel after with
  | Some y =>
      if bool_decide (user_limit y ≠ 0) then [(channel_id y, user_limit y + 1)]
      else []
  | None => []
  end.

(** A capacity edit of the trace raised. *)
Definition edit_raised (tr : list Entry) : bool :=
  existsb (λ e, match e with
                | Called (ChannelEdit _ _) (Raised _) => true
                | _ => false
                end) tr.

(** *** Hosts and events used as examples *)

(** A host on which every call returns; a new channel gets id 900. *)
Definition obliging_host : Host := λ _ c,
  match c with
  | CreateVoiceChannel _ _ _ => Returned 900
  | _ => Returned 0
  end.

(** The member has left voice by the time the listener moves it: the move
    raises, everything else returns. *)
Definition host_member_gone : Host := λ _ c,
  match c with
  | CreateVoiceChannel _ _ _ => Returned 900
  | MoveTo _ _ => Raised HTTPException
  | _ => Returned 0
  end.

(** Channel [gone] has vanished: editing it raises, everything else
    returns. *)
Definition host_channel_gone (gone : Z) : Host := λ _ c,
  match c with
  | CreateVoiceChannel _ _ _ => Returned 900
  | ChannelEdit c _ => if bool_decide (c = gone) then Raised NotFound else Returned 0
  | _ => Returned 0
  end.

Definition no_channel : VoiceState := mkVoiceState None.

(** Member 1 holds role 50. *)
Definition joining_member : Member := mkMember 1 [50].

(** Scenario A: ForceLimit enabled, nothing ignored; channel 20 has capacity
    3 and, with member 1 in it, 4 occupants. *)
Definition scenario_A_conf : GuildConf := (forcelimit_enable default_guild).1.

Definition crowded_channel : VoiceState :=
  mkVoiceState (Some (mkVoiceChannel 20 3 [2; 3; 4; 1] 7 7 8)).

(** Scenario B: as A, with role 50 on the ignore list. *)
Definition scenario_B_conf : GuildConf :=
  (forcelimit_add scenario_A_conf [IgnoreRole 50 "friends"]).1.

(** Scenario C: VIP enabled, member 1 a VIP; channels X = 10 and Y = 20 both
    have capacity 5. *)
Definition scenario_C_conf : GuildConf :=
  (vip_enable (vip_add default_guild [VipMember 1 "one"]).1).1.

Definition channel_X : VoiceState :=
  mkVoiceState (Some (mkVoiceChannel 10 5 [2; 3] 7 7 8)).

Definition channel_Y : VoiceState :=
  mkVoiceState (Some (mkVoiceChannel 20 5 [4; 1] 7 7 8)).

(** Scenario D: the destination is unlimited. *)
Definition unlimited_channel : VoiceState :=
  mkVoiceState (Some (mkVoiceChannel 30 0 [4; 1] 7 7 8)).

(** Both modules enabled, member 1 a VIP. *)
Definition both_enabled_conf : GuildConf := (forcelimit_enable scenario_C_conf).1.

(** A configuration whose member ignore list is [1; 2]. *)
Definition conf_ignoring_1_2 : GuildConf :=
  (forcelimit_add default_guild [IgnoreMember 1 "a"; IgnoreMember 2 "b"]).1.

(** How an evaluation ends with respect to host errors: normally, and then
    no call of its trace raised; or with an exception, and then that
    exception is the one raised by the last call of the trace, the only call
    that raised. *)
Definition stops_at_first_raise {A} (r : list Entry * Result A) : Prop :=
  match r with
  | (tr, Done _) => raised tr = false
  | (tr, Failed e) =>
      ∃ tr0 c, tr = tr0 ++ [Called c (Raised e)] ∧ raised tr0 = false
  end.

(** A computation that catches nothing: run after a trace without a raise,
    it stops at the first call that raises. *)
Definition propagates {A} (m : Eval A) : Prop :=
  ∀ host tr, raised tr = false → stops_at_first_raise (m host tr).

(** When the ForceLimit half starts a forced disconnect. *)
Definition forcelimit_applies (conf : GuildConf) (member : Member)
    (after : VoiceState) : Prop :=
  forcelimit_enabled conf = true
  ∧ ∃ c, channel after = Some c
         ∧ user_limit c ≠ 0
         ∧ Z.of_nat (length (members c)) > user_limit c
         ∧ ¬ exempted conf member c.

(** *** Vocabulary of the properties of the listings *)

(** Every id on the lists of a listing is known to the guild. *)
Definition ignore_resolved (g : Guild) (conf : GuildConf) : Prop :=
  (∀ id, id ∈ forcelimit_ignore_member_list conf → id ∈ guild_members g)
  ∧ (∀ id, id ∈ forcelimit_ignore_role_list conf → id ∈ guild_roles g)
  ∧ (∀ id, id ∈ forcelimit_ignore_vc_list conf → id ∈ guild_channels g).

Definition vip_resolved (g : Guild) (conf : GuildConf) : Prop :=
  (∀ id, id ∈ vip_member_list conf → id ∈ guild_members g)
  ∧ (∀ id, id ∈ vip_role_list conf → id ∈ guild_roles g).

(** Every field of every page holds the filler or a page cut by [pagify]
    with a page length of 1024. *)
Definition fields_within_budget (pagify : string → nat → list string)
    (embed_pages : list Embed) : Prop :=
  ∀ embed name value,
    embed ∈ embed_pages → (name, value) ∈ fields embed →
    value = "None" ∨ ∃ text, value ∈ pagify text 1024%nat.

(** A stand-in for [pagify] on the short texts of the examples (up to the
    1016 characters that [pagify] puts on a page of length 1024, and with no
    other white space than the characters of [Ascii.is_space]): no page for
    a blank text, the text itself otherwise. It says nothing of longer
    texts, which [pagify] cuts. *)
Fixpoint blank (s : string) : bool :=
  match s with
  | EmptyString => true
  | String c s' => Ascii.is_space c && blank s'
  end.

Definition pagify_short (text : string) (page_length : nat) : list string :=
  if blank text then [] else [text].

(** A guild that knows members 1 and 2, neither with a nickname, role 50
    and channels 10 and 20. *)
Definition small_guild : Guild := mkGuild [1; 2] [] [50] [10; 20].

(** The same guild after member 1 has left. *)
Definition guild_without_1 : Guild := mkGuild [2] [] [50] [10; 20].

(** ** Further vocabulary: commands that name several targets *)

(** What the loop of an add command does to one list, given the ids named
    for that list, in order; and the same for a remove command (a
    [ValueError] leaves the list as it is). *)
Definition add_ids (l ids : list Z) : list Z :=
  foldl (λ l x, if bool_decide (x ∉ l) then l ++ [x] else l) l ids.

Definition remove_ids (l ids : list Z) : list Z :=
  foldl (λ l x, default l (list_remove x l)) l ids.

#[global] Instance IgnoreAlias_eq_dec : EqDecision IgnoreAlias.
Proof. solve_decision. Defined.

#[global] Instance VipAlias_eq_dec : EqDecision VipAlias.
Proof. solve_decision. Defined.

#[global] Instance Category_eq_dec : EqDecision Category.
Proof. solve_decision. Defined.

(** The ids an ignore or VIP command names for one of the five lists. *)
Definition ignore_ids (k : Category) (ignores : list MemberOrRoleorVoiceChannel)
  : list Z :=
  ignore_id <$> filter (λ t, ignore_category t = k) ignores.

Definition vip_ids (k : Category) (vips : list MemberOrRole) : list Z :=
  vip_id <$> filter (λ t, vip_category t = k) vips.

(** The number of entries of the five lists together. *)
Definition total_entries (conf : GuildConf) : nat :=
  (length (forcelimit_ignore_member_list conf)
   + length (forcelimit_ignore_role_list conf)
   + length (forcelimit_ignore_vc_list conf)
   + length (vip_member_list conf)
   + length (vip_role_list conf))%nat.

(** The number of entries of the local lists of a command. *)
Definition ignore_size (loc : IgnoreLocals) : nat :=
  (length (ignore_member_list loc) + length (ignore_role_list loc)
   + length (ignore_vc_list loc))%nat.

Definition vip_size (loc : VipLocals) : nat :=
  (length (loc_vip_member_list loc) + length (loc_vip_role_list loc))%nat.

(** ** Further vocabulary: the toggles within a session *)

(** What a command sets a module's toggle to, if it sets it at all. *)
Definition forcelimit_toggle (c : Command) : option bool :=
  match c with
  | CmdForcelimitEnable => Some true
  | CmdForcelimitDisable => Some false
  | _ => None
  end.

Definition vip_toggle (c : Command) : option bool :=
  match c with
  | CmdVipEnable => Some true
  | CmdVipDisable => Some false
  | _ => None
  end.

(** The value the last toggling command of a session leaves, [init] if
    there is none. *)
Definition last_toggle (toggle : Command → option bool) (init : bool)
    (cs : list Command) : bool :=
  foldl (λ b c, default b (toggle c)) init cs.

(** The commands of a session that work on the lists. *)
Definition is_list_command (c : Command) : bool :=
  match c with
  | CmdForcelimitIgnore _ | CmdForcelimitUnignore _
  | CmdVipAdd _ | CmdVipRemove _ => true
  | _ => false
  end.

(** ** Further vocabulary: traces of the listener *)

(** The channels an evaluation asked the host to move a member into. *)
Definition move_targets (tr : list Entry) : list Z :=
  omap (λ c, match c with MoveTo _ vc => Some vc | _ => None end)
       (host_calls tr).

(** The channels whose deletion returned. *)
Definition deleted_channels (tr : list Entry) : list Z :=
  omap (λ e, match e with
             | Called (ChannelDelete vc) (Returned _) => Some vc
             | _ => None
             end) tr.

(** A capacity adjustment as the host call it is. *)
Definition edit_call (p : Z * Z) : HostCall := ChannelEdit p.1 p.2.

(** The log lines of a trace. *)
Definition log_lines (tr : list Entry) : list string :=
  omap (λ e, match e with LogInfo msg => Some msg | Called _ _ => None end) tr.

(** The capacity edits that returned. *)
Definition returned_edits (tr : list Entry) : list (Z * Z) :=
  omap (λ e, match e with
             | Called (ChannelEdit c n) (Returned _) => Some (c, n)
             | _ => None
             end) tr.

(** ** Further vocabulary: a command's target and an event *)

(** The target of an ignore command covers the event: it is the member,
    a role the member holds, or the channel entered. *)
Definition ignore_covers (ignore : MemberOrRoleorVoiceChannel)
    (member : Member) (after : VoiceState) : Prop :=
  match ignore with
  | IgnoreMember id _ => id = member_id member
  | IgnoreRole id _ => id ∈ roles member
  | IgnoreVoiceChannel id _ => ∃ c, channel after = Some c ∧ channel_id c = id
  end.

(** The target of a VIP command covers the member: it is the member or a
    role the member holds. *)
Definition vip_covers (vip : MemberOrRole) (member : Member) : Prop :=
  match vip with
  | VipMember id _ => id = member_id member
  | VipRole id _ => id ∈ roles member
  end.

(** *** Vocabulary of the forced disconnect *)

Definition is_edit (c : HostCall) : bool :=
  match c with ChannelEdit _ _ => true | _ => false end.

(** The host calls of a trace that are not capacity edits: the calls of
    its forced disconnects. *)
Definition disconnect_calls (tr : list Entry) : list HostCall :=
  filter (λ c, is_edit c = false) (host_calls tr).

(** The forced disconnect of [member] from channel [c], as the source
    carries it out: a temporary channel is asked of the guild of [c],
    hidden from the default role and visible to the bot, the member is
    moved into the channel [vc] that the host returned, and [vc] is
    deleted. *)
Definition force_disconnect (member : Member) (c : VoiceChannel) (vc : Z)
  : list HostCall :=
  [CreateVoiceChannel (guild_id c) temporary_channel_name
     [(default_role c, false); (me c, true)];
   MoveTo (member_id member) vc;
   ChannelDelete vc].

(** The VIP test of [_vip_check]: [member_on_list or role_list]. *)
Definition is_vip (conf : GuildConf) (member : Member) : bool :=
  on_list (vip_member_list conf) (member_id member)
  || bool_decide (filter (λ r, on_list (vip_role_list conf) r = true)
                         (roles member) ≠ []).

(** The limit of the destination [c] as [_forcelimit_check] reads it once
    the capacity edits have returned: the limit of the event, raised by one
    when [_vip_check] has adjusted the destination. *)
Definition limit_when_checked (conf : GuildConf) (member : Member)
    (before after : VoiceState) (c : VoiceChannel) : Z :=
  if vip_enabled conf && is_not (channel before) (channel after)
     && is_vip conf member && bool_decide (user_limit c ≠ 0)
  then user_limit c + 1
  else user_limit c.

(** The condition of a forced disconnect, on the event and the
    configuration. *)
Definition forcelimit_due (conf : GuildConf) (member : Member)
    (before after : VoiceState) : Prop :=
  forcelimit_enabled conf = true
  ∧ ∃ c, channel after = Some c
         ∧ limit_when_checked conf member before after c ≠ 0
         ∧ Z.of_nat (length (members c))
           > limit_when_checked conf member before after c
         ∧ ¬ exempted conf member c.

(** * Properties *)

(** ** The list store *)

Lemma list_remove_None (x : Z) (l : list Z) :
  list_remove x l = None ↔ x ∉ l.
Proof.
  induction l as [|y l IH]; simpl.
  - split; [intros _; apply not_elem_of_nil | done].
  - destruct (decide (x = y)) as [->|Hne].
    + split; [done | intros H; exfalso; apply H; left].
    + destruct (list_remove x l) as [r|] eqn:E.
      * split; [done|]. intros H. exfalso.
        assert (x ∉ l) as Hl by (intros ?; apply H; by right).
        apply IH in Hl. done.
      * split; [|done]. intros _ [?|?]%elem_of_cons; [done|].
        by apply (proj1 IH).
Qed.

Lemma list_remove_Some_elem (x : Z) (l : list Z) :
  x ∈ l → ∃ r, list_remove x l = Some r.
Proof.
  intros Hin. destruct (list_remove x l) as [r|] eqn:E; [by eexists|].
  by apply list_remove_None in E.
Qed.

(** Removing what was just appended gives the list back. *)
Lemma list_remove_snoc (x : Z) (l : list Z) :
  x ∉ l → list_remove x (l ++ [x]) = Some l.
Proof.
  induction l as [|y l IH]; simpl; intros Hni.
  - by rewrite decide_True.
  - apply not_elem_of_cons in Hni as [Hne Hni].
    rewrite decide_False by done. by rewrite IH.
Qed.

Lemma list_remove_sublist (x : Z) (l r : list Z) :
  list_remove x l = Some r → sublist r l.
Proof.
  revert r. induction l as [|y l IH]; simpl; intros r; [done|].
  destruct (decide (x = y)).
  - intros [= <-]. by apply sublist_cons.
  - destruct (list_remove x l) as [r'|]; [|done].
    intros [= <-]. by apply sublist_skip, IH.
Qed.

Lemma list_remove_NoDup (x : Z) (l r : list Z) :
  NoDup l → list_remove x l = Some r → NoDup r.
Proof. intros Hl Hr. eapply sublist_NoDup; [done|by eapply list_remove_sublist]. Qed.

(** With no duplicates, [list.remove] leaves no occurrence behind. *)
Lemma list_remove_NoDup_gone (x : Z) (l r : list Z) :
  NoDup l → list_remove x l = Some r → x ∉ r.
Proof.
  revert r. induction l as [|y l IH]; simpl; intros r Hnd; [done|].
  apply NoDup_cons in Hnd as [Hy Hnd].
  destruct (decide (x = y)) as [->|Hne].
  - by intros [= <-].
  - destruct (list_remove x l) as [r'|] eqn:E; [|done].
    intros [= <-]. apply not_elem_of_cons. split; [done|]. by apply IH.
Qed.

Lemma NoDup_snoc (x : Z) (l : list Z) : NoDup l → x ∉ l → NoDup (l ++ [x]).
Proof.
  intros Hl Hx. apply NoDup_app. split_and!; [done| |apply NoDup_singleton].
  intros y Hy ->%list_elem_of_singleton. done.
Qed.

Lemma forcelimit_add_body_NoDup st ignore :
  locals_NoDup st.1 → locals_NoDup (forcelimit_add_body st ignore).1.
Proof.
  intros (Hm & Hr & Hv). unfold forcelimit_add_body.
  case_bool_decide as Hin; [|by split_and!].
  destruct ignore; simpl in *; split_and!; simpl; auto using NoDup_snoc.
Qed.

Lemma forcelimit_remove_body_NoDup st ignore :
  locals_NoDup st.1 → locals_NoDup (forcelimit_remove_body st ignore).1.
Proof.
  intros (Hm & Hr & Hv). unfold forcelimit_remove_body.
  destruct (list_remove _ _) as [l|] eqn:E; [|by split_and!].
  destruct ignore; simpl in *; split_and!; simpl; eauto using list_remove_NoDup.
Qed.

Lemma vip_add_body_NoDup st vip :
  vip_locals_NoDup st.1 → vip_locals_NoDup (vip_add_body st vip).1.
Proof.
  intros (Hm & Hr). unfold vip_add_body.
  case_bool_decide as Hin; [|by split_and!].
  destruct vip; simpl in *; split_and!; simpl; auto using NoDup_snoc.
Qed.

Lemma vip_remove_body_NoDup st vip :
  vip_locals_NoDup st.1 → vip_locals_NoDup (vip_remove_body st vip).1.
Proof.
  intros (Hm & Hr). unfold vip_remove_body.
  destruct (list_remove _ _) as [l|] eqn:E; [|by split_and!].
  destruct vip; simpl in *; split_and!; simpl; eauto using list_remove_NoDup.
Qed.

(** A loop keeps what each of its iterations keeps. *)
Lemma foldl_invariant {A B} (P : A → Prop) (f : A → B → A) (l : list B) (a : A) :
  (∀ a b, P a → P (f a b)) → P a → P (foldl f a l).
Proof. intros Hf. revert a. induction l; simpl; auto. Qed.

Lemma run_command_NoDup conf c :
  lists_NoDup conf → lists_NoDup (run_command conf c).
Proof.
  intros (H1 & H2 & H3 & H4 & H5).
  assert (locals_NoDup (read_ignore conf)) as Hi by done.
  assert (vip_locals_NoDup (read_vip conf)) as Hv by done.
  destruct c as [| |ignores|ignores| | |vips|vips]; simpl.
  - unfold forcelimit_enable. by destruct (forcelimit_enabled conf).
  - unfold forcelimit_disable. by destruct (forcelimit_enabled conf).
  - pose proof (foldl_invariant (λ st, locals_NoDup st.1) forcelimit_add_body
      ignores (read_ignore conf, []) forcelimit_add_body_NoDup Hi) as (?&?&?).
    by split_and!.
  - pose proof (foldl_invariant (λ st, locals_NoDup st.1) forcelimit_remove_body
      ignores (read_ignore conf, []) forcelimit_remove_body_NoDup Hi) as (?&?&?).
    by split_and!.
  - unfold vip_enable. by destruct (vip_enabled conf).
  - unfold vip_disable. by destruct (vip_enabled conf).
  - pose proof (foldl_invariant (λ st, vip_locals_NoDup st.1) vip_add_body
      vips (read_vip conf, []) vip_add_body_NoDup Hv) as (?&?).
    by split_and!.
  - pose proof (foldl_invariant (λ st, vip_locals_NoDup st.1) vip_remove_body
      vips (read_vip conf, []) vip_remove_body_NoDup Hv) as (?&?).
    by split_and!.
Qed.

(** C10. Starting from the registered defaults, after any sequence of
    commands (each add or remove command naming any number of targets, the
    same target several times included) none of the five lists holds an id
    twice. *)
Theorem lists_never_hold_duplicates (cs : list Command) :
  lists_NoDup (run_commands default_guild cs).
Proof.
  unfold run_commands. apply foldl_invariant.
  - intros conf c. apply run_command_NoDup.
  - repeat split; apply NoDup_nil_2.
Qed.

Lemma write_read_ignore conf : write_ignore (read_ignore conf) conf = conf.
Proof. by destruct conf. Qed.

Lemma write_read_vip conf : write_vip (read_vip conf) conf = conf.
Proof. by destruct conf. Qed.

Lemma ignore_deref_read ignore conf :
  ignore_deref (ignore_alias ignore) (read_ignore conf)
  = get_list (ignore_category ignore) conf.
Proof. by destruct ignore. Qed.

Lemma vip_deref_read vip conf :
  vip_deref (vip_alias vip) (read_vip conf) = get_list (vip_category vip) conf.
Proof. by destruct vip. Qed.

(** What one [forcelimit_add] of one target does, by cases. *)
Lemma forcelimit_add_present conf ignore :
  ignore_id ignore ∈ get_list (ignore_category ignore) conf →
  forcelimit_add conf [ignore]
  = (conf, [ignore_str ignore +:+ " is already on ignore list";
            "Ignore list updated"]).
Proof.
  intros Hin. unfold forcelimit_add, forcelimit_add_body. simpl.
  rewrite ignore_deref_read, bool_decide_false by (by intros ?).
  simpl. by rewrite write_read_ignore.
Qed.

Lemma forcelimit_add_absent conf ignore :
  ignore_id ignore ∉ get_list (ignore_category ignore) conf →
  forcelimit_add conf [ignore]
  = (write_ignore
       (ignore_assign (ignore_alias ignore)
          (get_list (ignore_category ignore) conf ++ [ignore_id ignore])
          (read_ignore conf)) conf,
     ["Ignore list updated"]).
Proof.
  intros Hni. unfold forcelimit_add, forcelimit_add_body. simpl.
  by rewrite ignore_deref_read, bool_decide_true.
Qed.

Lemma vip_add_present conf vip :
  vip_id vip ∈ get_list (vip_category vip) conf →
  vip_add conf [vip]
  = (conf, [vip_str vip +:+ " is already on list"; "VIP list updated"]).
Proof.
  intros Hin. unfold vip_add, vip_add_body. simpl.
  rewrite vip_deref_read, bool_decide_false by (by intros ?).
  simpl. by rewrite write_read_vip.
Qed.

Lemma vip_add_absent conf vip :
  vip_id vip ∉ get_list (vip_category vip) conf →
  vip_add conf [vip]
  = (write_vip
       (vip_assign (vip_alias vip)
          (get_list (vip_category vip) conf ++ [vip_id vip]) (read_vip conf))
       conf,
     ["VIP list updated"]).
Proof.
  intros Hni. unfold vip_add, vip_add_body. simpl.
  by rewrite vip_deref_read, bool_decide_true.
Qed.

(** C8. For each of the five lists: adding an id that is on the list leaves
    the whole configuration as it was and sends the "already on ... list"
    message (and the command still ends normally, with its "updated"
    message); adding an id that is not on the list puts it at the end of
    that list, behind the entries that were there, in their order, and
    leaves the other four lists alone. *)
Theorem add_is_idempotent_and_appends (conf : GuildConf) :
  (∀ ignore : MemberOrRoleorVoiceChannel,
     (ignore_id ignore ∈ get_list (ignore_category ignore) conf →
      forcelimit_add conf [ignore]
      = (conf, [ignore_str ignore +:+ " is already on ignore list";
                "Ignore list updated"]))
     ∧ (ignore_id ignore ∉ get_list (ignore_category ignore) conf →
        get_list (ignore_category ignore) (forcelimit_add conf [ignore]).1
        = get_list (ignore_category ignore) conf ++ [ignore_id ignore]
        ∧ (∀ k, k ≠ ignore_category ignore →
             get_list k (forcelimit_add conf [ignore]).1 = get_list k conf)
        ∧ (forcelimit_add conf [ignore]).2 = ["Ignore list updated"]))
  ∧ (∀ vip : MemberOrRole,
       (vip_id vip ∈ get_list (vip_category vip) conf →
        vip_add conf [vip]
        = (conf, [vip_str vip +:+ " is already on list"; "VIP list updated"]))
       ∧ (vip_id vip ∉ get_list (vip_category vip) conf →
          get_list (vip_category vip) (vip_add conf [vip]).1
          = get_list (vip_category vip) conf ++ [vip_id vip]
          ∧ (∀ k, k ≠ vip_category vip →
               get_list k (vip_add conf [vip]).1 = get_list k conf)
          ∧ (vip_add conf [vip]).2 = ["VIP list updated"])).
Proof.
  split.
  - intros ignore. split; [apply forcelimit_add_present|].
    intros Hni. rewrite (forcelimit_add_absent _ _ Hni).
    destruct ignore; simpl; (split_and!; [done| |done]);
      intros []; simpl; congruence.
  - intros vip. split; [apply vip_add_present|].
    intros Hni. rewrite (vip_add_absent _ _ Hni).
    destruct vip; simpl; (split_and!; [done| |done]);
      intros []; simpl; congruence.
Qed.

(** Member 1 is on the list [1; 2], member 3 is not. *)
Lemma add_is_idempotent_and_appends_witness :
  forcelimit_add conf_ignoring_1_2 [IgnoreMember 1 "a"]
  = (conf_ignoring_1_2, ["a is already on ignore list"; "Ignore list updated"])
  ∧ get_list IgnoreMembers
      (forcelimit_add conf_ignoring_1_2 [IgnoreMember 3 "c"]).1 = [1; 2; 3].
Proof.
  destruct (add_is_idempotent_and_appends conf_ignoring_1_2) as [Hignore _].
  split.
  - apply (Hignore (IgnoreMember 1 "a")). vm_compute. left.
  - apply (Hignore (IgnoreMember 3 "c")). vm_compute.
    intros H. repeat (apply elem_of_cons in H as [H|H]; [lia|]).
    by apply elem_of_nil in H.
Defined.

(** One invocation naming member 3 twice and member 2, already listed: the
    second mention of 3 finds the 3 appended by the first. *)
Lemma add_same_target_twice :
  forcelimit_add conf_ignoring_1_2
    [IgnoreMember 3 "c"; IgnoreMember 2 "b"; IgnoreMember 3 "c"]
  = (write_ignore (mkIgnoreLocals [1; 2; 3] [] []) conf_ignoring_1_2,
     ["b is already on ignore list"; "c is already on ignore list";
      "Ignore list updated"]).
Proof. by vm_compute. Qed.

(** C3, as stated, fails: member 1 is on the list, the add changes nothing
    and the remove deletes it, so the list [1; 2] comes back as [2]. *)
Lemma present_id_is_gone_after_add_and_remove :
  get_list IgnoreMembers conf_ignoring_1_2 = [1; 2]
  ∧ get_list IgnoreMembers
      (forcelimit_remove
         (forcelimit_add conf_ignoring_1_2 [IgnoreMember 1 "a"]).1
         [IgnoreMember 1 "a"]).1 = [2]
  ∧ (forcelimit_remove
       (forcelimit_add conf_ignoring_1_2 [IgnoreMember 1 "a"]).1
       [IgnoreMember 1 "a"]).1 ≠ conf_ignoring_1_2.
Proof. split_and!; [done|done|]. by vm_compute. Qed.

Lemma forcelimit_remove_one conf ignore l :
  list_remove (ignore_id ignore) (get_list (ignore_category ignore) conf) = Some l →
  forcelimit_remove conf [ignore]
  = (write_ignore (ignore_assign (ignore_alias ignore) l (read_ignore conf)) conf,
     ["Ignore list updated"]).
Proof.
  intros Hl. unfold forcelimit_remove, forcelimit_remove_body. simpl.
  by rewrite ignore_deref_read, Hl.
Qed.

Lemma vip_remove_one conf vip l :
  list_remove (vip_id vip) (get_list (vip_category vip) conf) = Some l →
  vip_remove conf [vip]
  = (write_vip (vip_assign (vip_alias vip) l (read_vip conf)) conf,
     ["VIP list updated"]).
Proof.
  intros Hl. unfold vip_remove, vip_remove_body. simpl.
  by rewrite vip_deref_read, Hl.
Qed.

(** [list.remove] deletes the first occurrence and nothing else. *)
Lemma list_remove_split (x : Z) (l : list Z) :
  x ∈ l →
  ∃ l1 l2, l = l1 ++ x :: l2 ∧ (x ∉ l1) ∧ list_remove x l = Some (l1 ++ l2).
Proof.
  induction l as [|y l IH]; simpl; [by intros ?%elem_of_nil|].
  destruct (decide (x = y)) as [->|Hne].
  - intros _. exists [], l. split_and!; [done|apply not_elem_of_nil|done].
  - intros [?|Hin]%elem_of_cons; [done|].
    destruct (IH Hin) as (l1 & l2 & -> & Hl1 & ->).
    exists (y :: l1), l2. split_and!; [done| |done].
    by apply not_elem_of_cons.
Qed.

(** C3, amended. For each of the five lists: when the id is not on the list,
    add then remove gives back the configuration exactly as it was; when the
    id is on the list already, the add changes nothing and the remove
    deletes the id's first entry and nothing else: the entries before it and
    the entries behind it keep their places and their order, and the other
    four lists are untouched. On lists that hold no id twice (as every
    stored configuration has them) the list therefore ends without the
    id. *)
Theorem add_then_remove (conf : GuildConf) :
  (∀ ignore : MemberOrRoleorVoiceChannel,
     (ignore_id ignore ∉ get_list (ignore_category ignore) conf →
      (forcelimit_remove (forcelimit_add conf [ignore]).1 [ignore]).1 = conf)
     ∧ (ignore_id ignore ∈ get_list (ignore_category ignore) conf →
        (forcelimit_add conf [ignore]).1 = conf
        ∧ (∃ l1 l2,
             get_list (ignore_category ignore) conf
             = l1 ++ ignore_id ignore :: l2
             ∧ (ignore_id ignore ∉ l1)
             ∧ get_list (ignore_category ignore)
                 (forcelimit_remove (forcelimit_add conf [ignore]).1 [ignore]).1
               = l1 ++ l2)
        ∧ (lists_NoDup conf →
           ignore_id ignore
           ∉ get_list (ignore_category ignore)
               (forcelimit_remove (forcelimit_add conf [ignore]).1 [ignore]).1)
        ∧ (∀ k, k ≠ ignore_category ignore →
             get_list k
               (forcelimit_remove (forcelimit_add conf [ignore]).1 [ignore]).1
             = get_list k conf)))
  ∧ (∀ vip : MemberOrRole,
       (vip_id vip ∉ get_list (vip_category vip) conf →
        (vip_remove (vip_add conf [vip]).1 [vip]).1 = conf)
       ∧ (vip_id vip ∈ get_list (vip_category vip) conf →
          (vip_add conf [vip]).1 = conf
          ∧ (∃ l1 l2,
               get_list (vip_category vip) conf = l1 ++ vip_id vip :: l2
               ∧ (vip_id vip ∉ l1)
               ∧ get_list (vip_category vip)
                   (vip_remove (vip_add conf [vip]).1 [vip]).1 = l1 ++ l2)
          ∧ (lists_NoDup conf →
             vip_id vip
             ∉ get_list (vip_category vip)
                 (vip_remove (vip_add conf [vip]).1 [vip]).1)
          ∧ (∀ k, k ≠ vip_category vip →
               get_list k (vip_remove (vip_add conf [vip]).1 [vip]).1
               = get_list k conf))).
Proof.
  split.
  - intros ignore. split.
    + intros Hni. rewrite (forcelimit_add_absent _ _ Hni). cbn [fst].
      rewrite (forcelimit_remove_one _ _ (get_list (ignore_category ignore) conf)).
      * destruct conf, ignore; reflexivity.
      * destruct ignore; simpl in *; by apply list_remove_snoc.
    + intros Hin. rewrite (forcelimit_add_present _ _ Hin). cbn [fst].
      destruct (list_remove_split _ _ Hin) as (l1 & l2 & Hl & Hl1 & Hrm).
      rewrite (forcelimit_remove_one _ _ _ Hrm).
      assert (get_list (ignore_category ignore)
                (write_ignore
                   (ignore_assign (ignore_alias ignore) (l1 ++ l2)
                      (read_ignore conf)) conf) = l1 ++ l2) as Hres
        by (by destruct ignore).
      cbn [fst]. rewrite Hres. split_and!.
      * done.
      * by exists l1, l2.
      * intros (Hm & Hr & Hv & _ & _).
        assert (NoDup (get_list (ignore_category ignore) conf)) as Hnd
          by (by destruct ignore).
        exact (list_remove_NoDup_gone _ _ _ Hnd Hrm).
      * destruct ignore; simpl; intros []; simpl; congruence.
  - intros vip. split.
    + intros Hni. rewrite (vip_add_absent _ _ Hni). cbn [fst].
      rewrite (vip_remove_one _ _ (get_list (vip_category vip) conf)).
      * destruct conf, vip; reflexivity.
      * destruct vip; simpl in *; by apply list_remove_snoc.
    + intros Hin. rewrite (vip_add_present _ _ Hin). cbn [fst].
      destruct (list_remove_split _ _ Hin) as (l1 & l2 & Hl & Hl1 & Hrm).
      rewrite (vip_remove_one _ _ _ Hrm).
      assert (get_list (vip_category vip)
                (write_vip
                   (vip_assign (vip_alias vip) (l1 ++ l2) (read_vip conf)) conf)
              = l1 ++ l2) as Hres
        by (by destruct vip).
      cbn [fst]. rewrite Hres. split_and!.
      * done.
      * by exists l1, l2.
      * intros (_ & _ & _ & Hm & Hr).
        assert (NoDup (get_list (vip_category vip) conf)) as Hnd
          by (by destruct vip).
        exact (list_remove_NoDup_gone _ _ _ Hnd Hrm).
      * destruct vip; simpl; intros []; simpl; congruence.
Qed.

(** Member 3 is not on the list [1; 2]: the round trip restores the
    configuration. Member 1 is on it: after the round trip it is not. *)
Lemma add_then_remove_witness :
  (forcelimit_remove
     (forcelimit_add conf_ignoring_1_2 [IgnoreMember 3 "c"]).1
     [IgnoreMember 3 "c"]).1 = conf_ignoring_1_2
  ∧ 1 ∉ get_list IgnoreMembers
          (forcelimit_remove
             (forcelimit_add conf_ignoring_1_2 [IgnoreMember 1 "a"]).1
             [IgnoreMember 1 "a"]).1.
Proof.
  destruct (add_then_remove conf_ignoring_1_2) as [Hi _]. split.
  - apply (Hi (IgnoreMember 3 "c")). compute_done.
  - destruct (Hi (IgnoreMember 1 "a")) as [_ Hin].
    destruct Hin as (_ & _ & Hgone & _); [compute_done|].
    apply Hgone. repeat split; compute_done.
Defined.

(** ** The listener *)

Lemma bind_run {A B} (m : Eval A) (f : A → Eval B) host tr :
  (m ≫= f) host tr
  = match m host tr with
    | (tr', Done a) => f a host tr'
    | (tr', Failed e) => (tr', Failed e)
    end.
Proof. reflexivity. Qed.

Lemma ret_run {A} (a : A) host tr : (mret a : Eval A) host tr = (tr, Done a).
Proof. reflexivity. Qed.

Lemma call_run c host tr :
  call c host tr = (tr ++ [Called c (host tr c)], answer_result (host tr c)).
Proof. unfold call. by destruct (host tr c). Qed.

Lemma log_info_run msg host tr :
  log_info msg host tr = (tr ++ [LogInfo msg], Done tt).
Proof. reflexivity. Qed.

(** Run the next operation of the computation in the goal; a host call
    splits the goal by its answer. *)
Ltac run_step :=
  first
    [ rewrite bind_run
    | rewrite ret_run
    | rewrite log_info_run
    | match goal with
      | |- context [call ?c ?h ?t] =>
          rewrite (call_run c h t); destruct (h t c) eqn:?
      end ];
  cbn [answer_result fst snd].

Ltac run := repeat run_step.

(** *** The tests of the source, read as propositions *)

Lemma is_not_false before after :
  is_not (channel before) (channel after) = false ↔ same_channel before after.
Proof.
  unfold is_not, same_channel.
  destruct (channel before), (channel after); try done.
  rewrite bool_decide_eq_false. split; [apply dec_stable|]. by intros ? ?.
Qed.

Lemma on_list_true l id : on_list l id = true ↔ id ∈ l.
Proof. unfold on_list. apply bool_decide_eq_true. Qed.

Lemma existsb_on_list l rs :
  existsb (on_list l) rs = true ↔ ∃ r, r ∈ rs ∧ r ∈ l.
Proof.
  rewrite existsb_exists. split.
  - intros (r & Hr%list_elem_of_In & Hl%on_list_true). eauto.
  - intros (r & Hr%list_elem_of_In & Hl%on_list_true). eauto.
Qed.

Lemma ignored_true conf member c :
  ignored conf member c = true ↔ exempted conf member c.
Proof.
  unfold ignored, exempted.
  rewrite !orb_true_iff, !on_list_true, existsb_on_list. tauto.
Qed.

Lemma over_limit_true c :
  over_limit c = true
  ↔ user_limit c ≠ 0 ∧ Z.of_nat (length (members c)) > user_limit c.
Proof.
  unfold over_limit. by rewrite andb_true_iff, !bool_decide_eq_true.
Qed.

Lemma vip_test_true conf member :
  on_list (vip_member_list conf) (member_id member)
  || bool_decide (filter (λ r, on_list (vip_role_list conf) r = true)
                         (roles member) ≠ []) = true
  ↔ vip_qualifies conf member.
Proof.
  unfold vip_qualifies.
  rewrite orb_true_iff, on_list_true, bool_decide_eq_true.
  apply or_iff_compat_l. split.
  - intros Hne. destruct (filter _ _) as [|r rs] eqn:E; [done|].
    assert (r ∈ filter (λ r, on_list (vip_role_list conf) r = true)
                       (roles member)) as Hr by (rewrite E; left).
    apply list_elem_of_filter in Hr as [?%on_list_true ?]. eauto.
  - intros (r & Hr & Hl) E.
    assert (r ∈ filter (λ r, on_list (vip_role_list conf) r = true)
                       (roles member)) as Hin
      by (apply list_elem_of_filter; by rewrite on_list_true).
    rewrite E in Hin. by apply not_elem_of_nil in Hin.
Qed.

(** *** The two halves of an evaluation *)

Lemma evaluate_run host conf member before after :
  evaluate host conf member before after
  = match vip_step conf member before after host [] with
    | (tr1, Done (before', after')) =>
        forcelimit_step conf member before' after' host tr1
    | (tr1, Failed e) => (tr1, Failed e)
    end.
Proof.
  unfold evaluate, on_voice_state_update. rewrite bind_run.
  by destruct (vip_step _ _ _ _ _ _) as [tr1 [[b a]|e]].
Qed.

Lemma capacity_actions_snoc tr e :
  capacity_actions (tr ++ [e]) = capacity_actions tr ++ capacity_actions [e].
Proof. apply omap_app. Qed.

Lemma edit_raised_snoc tr e :
  edit_raised (tr ++ [e]) = edit_raised tr || edit_raised [e].
Proof. apply existsb_app. Qed.

Lemma host_calls_snoc tr e : host_calls (tr ++ [e]) = host_calls tr ++ host_calls [e].
Proof. apply omap_app. Qed.

(** The ForceLimit half issues no capacity adjustment. *)
Lemma forcelimit_step_capacity conf member before after host tr :
  capacity_actions (forcelimit_step conf member before after host tr).1
  = capacity_actions tr
  ∧ edit_raised (forcelimit_step conf member before after host tr).1
    = edit_raised tr.
Proof.
  unfold forcelimit_step, _forcelimit_check.
  destruct (forcelimit_enabled conf); [|done].
  destruct (channel after) as [c|]; [|done].
  destruct (over_limit c); [|done].
  destruct (ignored conf member c); [done|].
  run; rewrite ?capacity_actions_snoc, ?edit_raised_snoc; simpl;
    by rewrite ?app_nil_r, ?orb_false_r.
Qed.

(** The VIP half on an arbitrary trace, when it does not apply. *)
Lemma vip_step_idle conf member before after host tr :
  vip_enabled conf = false ∨ same_channel before after
  ∨ ¬ vip_qualifies conf member →
  vip_step conf member before after host tr = (tr, Done (before, after)).
Proof.
  unfold vip_step, _vip_check. intros [Hv|[Hs|Hq]].
  - by rewrite Hv.
  - apply is_not_false in Hs. rewrite Hs. by destruct (vip_enabled conf).
  - destruct (vip_enabled conf); [|done].
    destruct (is_not _ _); [|done].
    destruct (_ || _) eqn:E; [|done]. by apply vip_test_true in E.
Qed.

(** C5. With the VIP module disabled, an evaluation issues no capacity
    adjustment, whatever the event, the VIP lists and the host. *)
Theorem vip_disabled_no_capacity_action host conf member before after :
  vip_enabled conf = false →
  capacity_actions (evaluate host conf member before after).1 = [].
Proof.
  intros Hv. rewrite evaluate_run, vip_step_idle by auto.
  by rewrite (proj1 (forcelimit_step_capacity _ _ _ _ _ _)).
Qed.

Lemma vip_disabled_no_capacity_action_witness :
  capacity_actions
    (evaluate obliging_host scenario_A_conf joining_member
       channel_X crowded_channel).1 = [].
Proof. apply vip_disabled_no_capacity_action. reflexivity. Defined.

(** C6. When the member's source and destination are the same channel (a
    mute or deafen update, say), an evaluation issues no capacity
    adjustment, whatever the configuration, the VIP lists and the host. *)
Theorem same_channel_no_capacity_action host conf member before after :
  same_channel before after →
  capacity_actions (evaluate host conf member before after).1 = [].
Proof.
  intros Hs. rewrite evaluate_run, vip_step_idle by auto.
  by rewrite (proj1 (forcelimit_step_capacity _ _ _ _ _ _)).
Qed.

Lemma same_channel_no_capacity_action_witness :
  capacity_actions
    (evaluate obliging_host both_enabled_conf joining_member
       channel_X channel_X).1 = [].
Proof. apply same_channel_no_capacity_action. reflexivity. Defined.

(** The VIP half, when it applies: it asks for the adjustment of the channel
    left and then, if that call returned, for the adjustment of the channel
    entered; it ends normally exactly when no edit raised, and then the
    destination differs from the event's in its limit only. *)
Lemma vip_step_active conf member before after host tr :
  vip_enabled conf = true → ¬ same_channel before after →
  vip_qualifies conf member →
  capacity_actions (vip_step conf member before after host tr).1
  `prefix_of` capacity_actions tr ++ leave_adjustment before ++ join_adjustment after
  ∧ (edit_raised (vip_step conf member before after host tr).1 = false →
     capacity_actions (vip_step conf member before after host tr).1
     = capacity_actions tr ++ leave_adjustment before ++ join_adjustment after).
Proof.
  intros Hv Hs Hq. unfold vip_step, _vip_check. rewrite Hv.
  destruct (is_not _ _) eqn:Hn; [|by apply is_not_false in Hn].
  apply vip_test_true in Hq. rewrite Hq.
  unfold vip_leave, vip_join, leave_adjustment, join_adjustment, edit.
  destruct (channel before) as [x|], (channel after) as [y|];
    repeat case_bool_decide; run;
    rewrite ?capacity_actions_snoc, ?edit_raised_snoc; simpl;
    rewrite ?app_nil_r, ?orb_false_r, ?orb_true_r, <-?(assoc_L (++)); simpl;
    (split; [try done; by apply prefix_app, prefix_cons, prefix_nil|]);
    done.
Qed.

(** C7. With the VIP module enabled, when a VIP (by id or by a role it
    holds) changes channel, the capacity adjustments of the evaluation are,
    in this order, the decrement of the channel left (if it has a non-zero
    capacity) and the increment of the channel entered (if it has a
    non-zero capacity): never anything else, and all of them whenever the
    host raises on none of the edits (the second edit is only made once the
    first has returned). *)
Theorem vip_move_adjusts_source_then_destination host conf member before after :
  vip_enabled conf = true →
  vip_qualifies conf member →
  ¬ same_channel before after →
  capacity_actions (evaluate host conf member before after).1
  `prefix_of` leave_adjustment before ++ join_adjustment after
  ∧ (edit_raised (evaluate host conf member before after).1 = false →
     capacity_actions (evaluate host conf member before after).1
     = leave_adjustment before ++ join_adjustment after).
Proof.
  intros Hv Hq Hs. rewrite evaluate_run.
  pose proof (vip_step_active conf member before after host [] Hv Hs Hq)
    as [Hpre Heq].
  destruct (vip_step _ _ _ _ _ _) as [tr1 [[before' after']|e]]; [|done].
  destruct (forcelimit_step_capacity conf member before' after' host tr1)
    as [-> ->]. done.
Qed.

(** Scenario C, for a host on which the edits return. *)
Lemma vip_move_adjusts_source_then_destination_witness :
  capacity_actions
    (evaluate obliging_host scenario_C_conf joining_member channel_X channel_Y).1
  = [(10, 4); (20, 6)].
Proof.
  apply (vip_move_adjusts_source_then_destination obliging_host scenario_C_conf
           joining_member channel_X channel_Y).
  - reflexivity.
  - left. vm_compute. left.
  - unfold same_channel. simpl. lia.
  - reflexivity.
Defined.

(** Scenario D: an unlimited destination gets no adjustment, on any host. *)
Lemma scenario_D host :
  capacity_actions
    (evaluate host scenario_C_conf joining_member channel_X unlimited_channel).1
  = [(10, 4)].
Proof.
  rewrite evaluate_run.
  unfold vip_step, _vip_check, vip_leave, vip_join, edit. simpl.
  run; by vm_compute.
Qed.

Lemma force_disconnects_snoc tr e :
  force_disconnects (tr ++ [e]) = force_disconnects tr ++ force_disconnects [e].
Proof. unfold force_disconnects. by rewrite host_calls_snoc, filter_app. Qed.

Lemma moved_members_snoc tr e :
  moved_members (tr ++ [e]) = moved_members tr ++ moved_members [e].
Proof. unfold moved_members. by rewrite host_calls_snoc, omap_app. Qed.

(** The VIP half starts no forced disconnect and moves nobody. *)
Lemma vip_step_no_disconnect conf member before after host tr :
  force_disconnects (vip_step conf member before after host tr).1
  = force_disconnects tr
  ∧ moved_members (vip_step conf member before after host tr).1
    = moved_members tr.
Proof.
  unfold vip_step, _vip_check, vip_leave, vip_join, edit.
  destruct (vip_enabled conf); [|done].
  destruct (is_not _ _); [|done].
  destruct (_ || _); [|done].
  destruct (channel before) as [x|], (channel after) as [y|];
    repeat case_bool_decide; run;
    rewrite ?force_disconnects_snoc, ?moved_members_snoc; simpl;
    by rewrite ?app_nil_r.
Qed.


Ltac nobody_moved :=
  exists []; rewrite app_nil_r; split; [done|by intros ? ?%elem_of_nil].

Lemma forcelimit_step_disconnect conf member before after host tr :
  (forcelimit_applies conf member after →
   ∃ d, force_disconnects (forcelimit_step conf member before after host tr).1
        = force_disconnects tr ++ [d])
  ∧ (¬ forcelimit_applies conf member after →
     forcelimit_step conf member before after host tr = (tr, Done tt))
  ∧ (∃ ms, moved_members (forcelimit_step conf member before after host tr).1
           = moved_members tr ++ ms
           ∧ ∀ m, m ∈ ms → m = member_id member).
Proof.
  unfold forcelimit_applies, forcelimit_step, _forcelimit_check.
  destruct (forcelimit_enabled conf);
    [|split_and!; [by intros [? _]|done|nobody_moved]].
  destruct (channel after) as [c|];
    [|split_and!; [by intros (_&?&?&_)|done|nobody_moved]].
  destruct (over_limit c) eqn:Ho.
  2:{ split_and!; [|done|nobody_moved].
      intros (_&c'&[= <-]&?&?&_).
      assert (over_limit c = true) by (by apply over_limit_true). congruence. }
  apply over_limit_true in Ho as [??].
  destruct (ignored conf member c) eqn:Hi.
  { apply ignored_true in Hi.
    split_and!; [|done|nobody_moved].
    by intros (_&c'&[= <-]&_&_&?). }
  assert (¬ exempted conf member c) as Hne
    by (intros ?%ignored_true; congruence).
  split_and!.
  - intros _. eexists.
    run; rewrite ?force_disconnects_snoc; simpl; by rewrite ?app_nil_r.
  - intros []. eauto 10.
  - run; rewrite ?moved_members_snoc; simpl; rewrite ?app_nil_r;
      first [ nobody_moved
            | eexists [_]; split; [done|]; by intros ? ->%list_elem_of_singleton ].
Qed.

(** Whether ForceLimit applies is decided by the tests of the source. *)
Lemma classic_applies conf member after :
  forcelimit_applies conf member after ∨ ¬ forcelimit_applies conf member after.
Proof.
  unfold forcelimit_applies.
  destruct (forcelimit_enabled conf); [|right; by intros [? _]].
  destruct (channel after) as [c|]; [|right; by intros (_&?&?&_)].
  destruct (over_limit c) eqn:Ho.
  2:{ right. intros (_&c'&[= <-]&?&?&_).
      assert (over_limit c = true) by (by apply over_limit_true). congruence. }
  apply over_limit_true in Ho as [??].
  destruct (ignored conf member c) eqn:Hi.
  - apply ignored_true in Hi. right. by intros (_&c'&[= <-]&_&_&?).
  - left. split; [done|]. exists c. split_and!; try done.
    intros ?%ignored_true. congruence.
Qed.

(** What the VIP half leaves of the destination: the same channel, with its
    limit raised by one exactly when the VIP adjustment applied to it. *)
Lemma vip_step_destination conf member before after host tr tr1 before' after' :
  vip_step conf member before after host tr = (tr1, Done (before', after')) →
  match channel after, channel after' with
  | None, None => True
  | Some c, Some c' =>
      channel_id c' = channel_id c ∧ members c' = members c
      ∧ (vip_enabled conf = true ∧ vip_qualifies conf member
         ∧ ¬ same_channel before after ∧ user_limit c ≠ 0 →
         user_limit c' = user_limit c + 1)
      ∧ (¬ (vip_enabled conf = true ∧ vip_qualifies conf member
            ∧ ¬ same_channel before after ∧ user_limit c ≠ 0) →
         user_limit c' = user_limit c)
  | _, _ => False
  end.
Proof.
  destruct (decide (vip_enabled conf = true)) as [Hv|Hv].
  2:{ rewrite vip_step_idle by (left; by destruct (vip_enabled conf)).
      intros [= <- <- <-]. destruct (channel after); [|done].
      split_and!; [done|done|by intros [? _]|done]. }
  destruct (is_not (channel before) (channel after)) eqn:Hn.
  2:{ apply is_not_false in Hn. rewrite vip_step_idle by auto.
      intros [= <- <- <-]. destruct (channel after); [|done].
      split_and!; [done|done|by intros (_&_&?&_)|done]. }
  assert (¬ same_channel before after) as Hs
    by (intros ?%is_not_false; congruence).
  destruct (on_list (vip_member_list conf) (member_id member)
            || bool_decide (filter (λ r, on_list (vip_role_list conf) r = true)
                                   (roles member) ≠ [])) eqn:Hq.
  2:{ assert (¬ vip_qualifies conf member) as Hnq
        by (intros ?%vip_test_true; congruence).
      rewrite vip_step_idle by auto.
      intros [= <- <- <-]. destruct (channel after); [|done].
      split_and!; [done|done|by intros (_&?&_)|done]. }
  assert (vip_qualifies conf member) as Hq' by (by apply vip_test_true).
  unfold vip_step, _vip_check. rewrite Hv, Hn, Hq.
  unfold vip_leave, vip_join, edit.
  destruct (channel before) as [x|], (channel after) as [y|] eqn:Ha;
    repeat case_bool_decide; run; intros [= <- <- <-]; simpl;
    rewrite ?Ha; try done; split_and!; try done; try tauto;
    intros H'; exfalso; apply H'; done.
Qed.

(** Scenario A: exactly one forced disconnect, on any host; where every call
    returns it is the temporary channel, the move of the joining member into
    it, and its deletion. *)
Lemma scenario_A host :
  length (force_disconnects
            (evaluate host scenario_A_conf joining_member no_channel
               crowded_channel).1) = 1%nat.
Proof.
  rewrite evaluate_run. unfold forcelimit_step, _forcelimit_check. simpl.
  run; by vm_compute.
Qed.

Lemma scenario_A_calls :
  host_calls
    (evaluate obliging_host scenario_A_conf joining_member no_channel
       crowded_channel).1
  = [CreateVoiceChannel 7 temporary_channel_name [(7, false); (8, true)];
     MoveTo 1 900; ChannelDelete 900].
Proof. by vm_compute. Qed.

(** Scenario B: a held role on the ignore list suppresses everything. *)
Lemma scenario_B host :
  evaluate host scenario_B_conf joining_member no_channel crowded_channel
  = ([], Done tt).
Proof. by vm_compute. Qed.

(** With both modules enabled, a VIP entering a channel over its limit is
    not disconnected when raising the limit makes room: capacity 3 becomes
    4, for 4 occupants. *)
Lemma vip_not_kicked :
  host_calls
    (evaluate obliging_host both_enabled_conf joining_member no_channel
       crowded_channel).1
  = [ChannelEdit 20 4].
Proof. by vm_compute. Qed.

(** *** The forced-disconnect sequence *)

Lemma delete_requests_entries tr :
  delete_requests tr
  = omap (λ e, match e with
               | Called (ChannelDelete vc) _ => Some vc
               | _ => None
               end) tr.
Proof.
  unfold delete_requests, host_calls.
  induction tr as [|[[]|] tr IH]; simpl; try done. f_equal. exact IH.
Qed.

(** The temporary channels of an evaluation: either every channel the host
    created was asked to be deleted, or the move into the one created
    channel raised and its deletion was never asked for. *)
Lemma temporary_channel_cleanup host conf member before after :
  delete_requests (evaluate host conf member before after).1
  = created_channels (evaluate host conf member before after).1
  ∨ ∃ vc e,
      created_channels (evaluate host conf member before after).1 = [vc]
      ∧ delete_requests (evaluate host conf member before after).1 = []
      ∧ last (evaluate host conf member before after).1
        = Some (Called (MoveTo (member_id member) vc) (Raised e)).
Proof.
  rewrite evaluate_run.
  pose proof delete_requests_entries as Hdel.
  assert (delete_requests (vip_step conf member before after host []).1 = []
          ∧ created_channels (vip_step conf member before after host []).1 = [])
    as [Hd Hc].
  { rewrite Hdel. unfold created_channels.
    unfold vip_step, _vip_check, vip_leave, vip_join, edit.
    destruct (vip_enabled conf); [|done].
    destruct (is_not _ _); [|done].
    destruct (_ || _); [|done].
    destruct (channel before) as [x|], (channel after) as [y|];
      repeat case_bool_decide; run; by rewrite ?omap_app. }
  destruct (vip_step conf member before after host [])
    as [tr1 [[before' after']|e]]; simpl in Hd, Hc; [|left; simpl; congruence].
  rewrite !Hdel in *. unfold created_channels in *.
  unfold forcelimit_step, _forcelimit_check.
  destruct (forcelimit_enabled conf); [|left; simpl; congruence].
  destruct (channel after') as [c|]; [|left; simpl; congruence].
  destruct (over_limit c); [|left; simpl; congruence].
  destruct (ignored conf member c); [left; simpl; congruence|].
  run; rewrite ?omap_app, ?Hd, ?Hc; simpl;
    first [ by left | right; eexists _, _; split_and!; [done..|apply last_snoc] ].
Qed.

(** C1, at the failing input. Scenario A on a host where the move raises
    because the member has left voice: the host has created channel 900,
    the evaluation ends with the exception of the move, and the deletion of
    channel 900 was never asked for. *)
Theorem temporary_channel_left_behind_when_move_raises :
  evaluate host_member_gone scenario_A_conf joining_member no_channel
    crowded_channel
  = ([Called (CreateVoiceChannel 7 temporary_channel_name [(7, false); (8, true)])
        (Returned 900);
      Called (MoveTo 1 900) (Raised HTTPException)],
     Failed HTTPException)
  ∧ created_channels
      (evaluate host_member_gone scenario_A_conf joining_member no_channel
         crowded_channel).1 = [900]
  ∧ delete_requests
      (evaluate host_member_gone scenario_A_conf joining_member no_channel
         crowded_channel).1 = [].
Proof. by vm_compute. Qed.

(** *** Host errors *)

Lemma raised_snoc tr e : raised (tr ++ [e]) = raised tr || raised [e].
Proof. apply existsb_app. Qed.

Lemma propagates_ret {A} (a : A) : propagates (mret a : Eval A).
Proof. by intros host tr Htr. Qed.

Lemma propagates_log_info msg : propagates (log_info msg).
Proof.
  intros host tr Htr. rewrite log_info_run. simpl.
  by rewrite raised_snoc, Htr.
Qed.

Lemma propagates_call c : propagates (call c).
Proof.
  intros host tr Htr. rewrite call_run.
  destruct (host tr c) as [v|e]; simpl.
  - by rewrite raised_snoc, Htr.
  - by exists tr, c.
Qed.

Lemma propagates_bind {A B} (m : Eval A) (f : A → Eval B) :
  propagates m → (∀ a, propagates (f a)) → propagates (m ≫= f).
Proof.
  intros Hm Hf host tr Htr. rewrite bind_run.
  specialize (Hm host tr Htr).
  destruct (m host tr) as [tr' [a|e]]; [|done]. by apply Hf.
Qed.

Create HintDb propagate.
#[local] Hint Resolve propagates_ret propagates_log_info propagates_call
  propagates_bind : propagate.

Lemma propagates_edit c n : propagates (edit c n).
Proof. unfold edit. auto with propagate. Qed.
#[local] Hint Resolve propagates_edit : propagate.

Lemma propagates_vip_leave vip_id vip_type vs :
  propagates (vip_leave vip_id vip_type vs).
Proof. unfold vip_leave. repeat case_match; auto 7 with propagate. Qed.

Lemma propagates_vip_join vip_id vip_type vs :
  propagates (vip_join vip_id vip_type vs).
Proof. unfold vip_join. repeat case_match; auto 7 with propagate. Qed.
#[local] Hint Resolve propagates_vip_leave propagates_vip_join : propagate.

Lemma propagates_vip_check conf member before after :
  propagates (_vip_check conf member before after).
Proof. unfold _vip_check. repeat case_match; auto 7 with propagate. Qed.

Lemma propagates_forcelimit_check conf member before after :
  propagates (_forcelimit_check conf member before after).
Proof. unfold _forcelimit_check. repeat case_match; auto 9 with propagate. Qed.
#[local] Hint Resolve propagates_vip_check propagates_forcelimit_check : propagate.

Lemma propagates_on_voice_state_update conf member before after :
  propagates (on_voice_state_update conf member before after).
Proof.
  unfold on_voice_state_update, vip_step, forcelimit_step.
  apply propagates_bind; [case_match; auto with propagate|].
  intros [before' after']. case_match; auto with propagate.
Qed.

(** C4, as stated, fails. Both modules enabled, VIP member 1 moves from
    channel 10 to channel 20, which has vanished on the host: the limit of
    channel 10 has been lowered, the edit of channel 20 raises [NotFound],
    and the evaluation ends with that exception, the ForceLimit half never
    run. *)
Lemma host_error_is_propagated :
  host_calls
    (evaluate (host_channel_gone 20) both_enabled_conf joining_member
       channel_X crowded_channel).1
  = [ChannelEdit 10 4; ChannelEdit 20 4]
  ∧ (evaluate (host_channel_gone 20) both_enabled_conf joining_member
       channel_X crowded_channel).2 = Failed NotFound
  ∧ (evaluate (host_channel_gone 20) both_enabled_conf joining_member
       channel_X crowded_channel).2 ≠ Done tt
  ∧ Called (ChannelEdit 10 4) (Returned 0)
    ∈ (evaluate (host_channel_gone 20) both_enabled_conf joining_member
         channel_X crowded_channel).1.
Proof. split_and!; [done|done|done|]. vm_compute. left. Qed.

(** C4, amended. For every event, configuration and host: the listener
    catches no host error. An evaluation in which no call raises ends
    normally; one in which a call raises ends at that call, with its
    exception handed to the caller: the calls made before it have returned
    (and stay made), and no call is made after it. *)
Theorem host_errors_propagate host conf member before after :
  stops_at_first_raise (evaluate host conf member before after).
Proof. by apply propagates_on_voice_state_update. Qed.

(** ** The listings *)

Lemma join_mentions_head (m : Mentionable) (ms : list Mentionable) :
  ∃ text, join ", " (mention <$> m :: ms) = String "<"%char text.
Proof. destruct m as [id []|id|id], ms; simpl; eauto. Qed.

(** The text of a category whose ids all resolve: empty for an empty list,
    starting with the "<" of a mention otherwise. *)
Lemma content_of_resolved (get : Z → option Mentionable) (ids : list Z) :
  (∀ id, id ∈ ids → is_Some (get id)) →
  ∃ content, content_of get ids = Some content
             ∧ (ids = [] → content = "")
             ∧ (ids ≠ [] → ∃ text, content = String "<"%char text).
Proof.
  intros Hres. unfold content_of.
  destruct (mapM_is_Some_2 get ids) as [ms Hms].
  { apply Forall_forall. intros id Hid. by apply Hres. }
  rewrite Hms. simpl. eexists. split; [done|].
  apply mapM_Some in Hms. destruct Hms as [|id m ids ms _ _]; split; try done.
  intros _. apply join_mentions_head.
Qed.

Lemma get_member_is_Some g id : id ∈ guild_members g → is_Some (get_member g id).
Proof. intros ?. unfold get_member. by rewrite bool_decide_true. Qed.

Lemma get_role_is_Some g id : id ∈ guild_roles g → is_Some (get_role g id).
Proof. intros ?. unfold get_role. by rewrite bool_decide_true. Qed.

Lemma get_channel_is_Some g id :
  id ∈ guild_channels g → is_Some (get_channel g id).
Proof. intros ?. unfold get_channel. by rewrite bool_decide_true. Qed.

Lemma page_at_cases fill pages i :
  page_at fill pages i = fill ∨ page_at fill pages i ∈ pages.
Proof.
  unfold page_at. destruct (pages !! i) as [p|] eqn:E; simpl; [|by left].
  right. by eapply list_elem_of_lookup_2.
Qed.

Section ListingProperties.
Variable pagify : string → nat → list string.
Variable embed_colour : Z.

(** What the listings rely on of [pagify]: it yields no page for the empty
    text, and at least one page for a text that starts with the "<" of a
    mention (it drops blank pages only). *)
Hypothesis pagify_empty : pagify "" 1024%nat = [].
Hypothesis pagify_mentions :
  ∀ text, pagify (String "<"%char text) 1024%nat ≠ [].

(** A menu of the ignore listing is never empty and keeps the budget. *)
Lemma ignorelist_menu g conf embed_pages :
  forcelimit_ignorelist pagify embed_colour g conf = Menu embed_pages →
  embed_pages ≠ [] ∧ fields_within_budget pagify embed_pages.
Proof.
  unfold forcelimit_ignorelist.
  destruct (content_of _ _) as [cm|]; [|done].
  destruct (content_of _ _) as [cr|]; [|done].
  destruct (content_of _ _) as [cv|]; [|done].
  destruct (_ && _) eqn:Hz; [done|]. intros [= <-]. split.
  - intros Hnil. apply (f_equal length) in Hnil.
    rewrite length_imap in Hnil. unfold zip_longest3 in Hnil.
    rewrite length_fmap, length_seq in Hnil. simpl in Hnil.
    rewrite !andb_false_iff, !bool_decide_eq_false in Hz. lia.
  - intros embed name value (i & page & -> & Hi)%elem_of_lookup_imap.
    unfold zip_longest3 in Hi. apply list_lookup_fmap_Some in Hi as (j & -> & _).
    simpl. rewrite !elem_of_cons, elem_of_nil.
    intros [[= _ ->]|[[= _ ->]|[[= _ ->]|[]]]];
      (destruct (page_at_cases "None" (pagify cm 1024) j);
       destruct (page_at_cases "None" (pagify cr 1024) j);
       destruct (page_at_cases "None" (pagify cv 1024) j); eauto).
Qed.

Lemma vip_list_menu g conf embed_pages :
  vip_list pagify embed_colour g conf = Menu embed_pages →
  embed_pages ≠ [] ∧ fields_within_budget pagify embed_pages.
Proof.
  unfold vip_list.
  destruct (content_of _ _) as [cm|]; [|done].
  destruct (content_of _ _) as [cr|]; [|done].
  destruct (_ && _) eqn:Hz; [done|]. intros [= <-]. split.
  - intros Hnil. apply (f_equal length) in Hnil.
    rewrite length_imap in Hnil. unfold zip_longest2 in Hnil.
    rewrite length_fmap, length_seq in Hnil. simpl in Hnil.
    rewrite !andb_false_iff, !bool_decide_eq_false in Hz. lia.
  - intros embed name value (i & page & -> & Hi)%elem_of_lookup_imap.
    unfold zip_longest2 in Hi. apply list_lookup_fmap_Some in Hi as (j & -> & _).
    simpl. rewrite !elem_of_cons, elem_of_nil.
    intros [[= _ ->]|[[= _ ->]|[]]];
      (destruct (page_at_cases "None" (pagify cm 1024) j);
       destruct (page_at_cases "None" (pagify cr 1024) j); eauto).
Qed.

(** What the two listings do for every guild: with the three ignore lists
    empty the ignore listing is the single message "Ignore list is empty",
    and with the two VIP lists empty the VIP listing is the single message
    "VIP list is empty"; a menu, whenever one is produced, has at least one
    page, and each of its fields holds the filler or a page cut with a page
    length of 1024; and a listing with a non-empty list, all of whose ids
    the guild resolves, produces such a menu. *)
Lemma listing_of_resolved_ids (g : Guild) (conf : GuildConf) :
  (forcelimit_ignore_member_list conf = [] →
   forcelimit_ignore_role_list conf = [] →
   forcelimit_ignore_vc_list conf = [] →
   forcelimit_ignorelist pagify embed_colour g conf
   = Send "Ignore list is empty")
  ∧ (vip_member_list conf = [] → vip_role_list conf = [] →
     vip_list pagify embed_colour g conf = Send "VIP list is empty")
  ∧ (∀ embed_pages,
       forcelimit_ignorelist pagify embed_colour g conf = Menu embed_pages
       ∨ vip_list pagify embed_colour g conf = Menu embed_pages →
       embed_pages ≠ [] ∧ fields_within_budget pagify embed_pages)
  ∧ (ignore_resolved g conf →
     forcelimit_ignore_member_list conf ≠ []
     ∨ forcelimit_ignore_role_list conf ≠ []
     ∨ forcelimit_ignore_vc_list conf ≠ [] →
     ∃ embed_pages,
       forcelimit_ignorelist pagify embed_colour g conf = Menu embed_pages)
  ∧ (vip_resolved g conf →
     vip_member_list conf ≠ [] ∨ vip_role_list conf ≠ [] →
     ∃ embed_pages, vip_list pagify embed_colour g conf = Menu embed_pages).
Proof.
  split_and!.
  - intros Hm Hr Hv. unfold forcelimit_ignorelist. rewrite Hm, Hr, Hv.
    simpl. by rewrite pagify_empty.
  - intros Hm Hr. unfold vip_list. rewrite Hm, Hr. simpl.
    by rewrite pagify_empty.
  - intros embed_pages [H|H]; [by eapply ignorelist_menu|by eapply vip_list_menu].
  - intros (Rm & Rr & Rv) Hne. unfold forcelimit_ignorelist.
    destruct (content_of_resolved (get_member g)
                (forcelimit_ignore_member_list conf))
      as (cm & -> & _ & Hcm); [eauto using get_member_is_Some|].
    destruct (content_of_resolved (get_role g)
                (forcelimit_ignore_role_list conf))
      as (cr & -> & _ & Hcr); [eauto using get_role_is_Some|].
    destruct (content_of_resolved (get_channel g)
                (forcelimit_ignore_vc_list conf))
      as (cv & -> & _ & Hcv); [eauto using get_channel_is_Some|].
    destruct (_ && _) eqn:Hz; [|by eexists].
    rewrite !andb_true_iff, !bool_decide_eq_true in Hz.
    destruct Hz as [[Hzm Hzr] Hzv]. rewrite Hzv in Hzr. rewrite Hzr in Hzm.
    apply length_zero_iff_nil in Hzm, Hzr, Hzv.
    destruct Hne as [Hne|[Hne|Hne]].
    + destruct (Hcm Hne) as [text ->]. by apply pagify_mentions in Hzm.
    + destruct (Hcr Hne) as [text ->]. by apply pagify_mentions in Hzr.
    + destruct (Hcv Hne) as [text ->]. by apply pagify_mentions in Hzv.
  - intros (Rm & Rr) Hne. unfold vip_list.
    destruct (content_of_resolved (get_member g) (vip_member_list conf))
      as (cm & -> & _ & Hcm); [eauto using get_member_is_Some|].
    destruct (content_of_resolved (get_role g) (vip_role_list conf))
      as (cr & -> & _ & Hcr); [eauto using get_role_is_Some|].
    destruct (_ && _) eqn:Hz; [|by eexists].
    rewrite !andb_true_iff, !bool_decide_eq_true in Hz.
    destruct Hz as [Hzm Hzr]. rewrite Hzr in Hzm.
    apply length_zero_iff_nil in Hzm, Hzr.
    destruct Hne as [Hne|Hne].
    + destruct (Hcm Hne) as [text ->]. by apply pagify_mentions in Hzm.
    + destruct (Hcr Hne) as [text ->]. by apply pagify_mentions in Hzr.
Qed.
End ListingProperties.

Lemma pagify_short_mentions text :
  pagify_short (String "<"%char text) 1024%nat ≠ [].
Proof. done. Qed.

(** The empty ignore list of a new guild, and the VIP listing of member 1. *)
Lemma listing_of_resolved_ids_example :
  forcelimit_ignorelist pagify_short 0 small_guild scenario_C_conf
  = Send "Ignore list is empty"
  ∧ ∃ embed_pages, vip_list pagify_short 0 small_guild scenario_C_conf
                   = Menu embed_pages.
Proof.
  destruct (listing_of_resolved_ids pagify_short 0 eq_refl
              pagify_short_mentions small_guild scenario_C_conf)
    as (Hempty & _ & _ & _ & Hvip).
  split.
  - apply Hempty; reflexivity.
  - apply Hvip.
    + split; intros id Hid; vm_compute in Hid; vm_compute;
        by repeat (apply elem_of_cons in Hid as [->|Hid]; [left|]);
           apply elem_of_nil in Hid.
    + left. vm_compute. discriminate.
Defined.

(** The ignore listing of members 1 and 2: one page. *)
Lemma ignorelist_of_two_members :
  forcelimit_ignorelist pagify_short 0 small_guild conf_ignoring_1_2
  = Menu [ {| title := "Ignore List"; colour := 0;
              fields := [("Members", "<@1>, <@2>"); ("Roles", "None");
                         ("Voice channels", "None")];
              footer := "Page 1/1" |} ].
Proof. by vm_compute. Qed.

(** C9, at the failing input. Members 1 and 2 are on the ignore list (and
    member 1 on the VIP list) of a guild that member 1 has left:
    [get_member] gives [None] for id 1, reading [mention] of it raises, and
    the listing of a non-empty list ends with [AttributeError] instead of
    pages, whatever [pagify] yields. *)
Theorem listing_raises_for_unresolved_id (pagify : string → nat → list string)
    (embed_colour : Z) :
  get_list IgnoreMembers conf_ignoring_1_2 = [1; 2]
  ∧ get_list VipMembers scenario_C_conf = [1]
  ∧ get_member guild_without_1 1 = None
  ∧ forcelimit_ignorelist pagify embed_colour guild_without_1 conf_ignoring_1_2
    = AttributeError
  ∧ vip_list pagify embed_colour guild_without_1 scenario_C_conf
    = AttributeError.
Proof. by split_and!. Qed.

(** * Further properties *)

(** ** One list under a sequence of ids *)

Lemma add_ids_cons l x xs :
  add_ids l (x :: xs)
  = add_ids (if bool_decide (x ∉ l) then l ++ [x] else l) xs.
Proof. reflexivity. Qed.

Lemma remove_ids_cons l x xs :
  remove_ids l (x :: xs) = remove_ids (default l (list_remove x l)) xs.
Proof. reflexivity. Qed.

(** Adding appends, behind the list, the named ids that were not on it,
    each once, in the order of their first mention. *)
Lemma add_ids_appends l xs :
  ∃ d, add_ids l xs = l ++ d ∧ NoDup d ∧ ∀ y, y ∈ d ↔ y ∈ xs ∧ y ∉ l.
Proof.
  revert l. induction xs as [|x xs IH]; intros l.
  - exists []. rewrite app_nil_r. split_and!; [done|constructor|].
    intros y. split; [by intros ?%elem_of_nil|by intros [?%elem_of_nil _]].
  - rewrite add_ids_cons. case_bool_decide as Hx.
    + destruct (IH (l ++ [x])) as (d & -> & Hd & Hin).
      exists (x :: d). rewrite <- (assoc_L (++)). split_and!; [done| |].
      * constructor; [|done]. rewrite Hin. intros [_ Hn]. apply Hn.
        apply elem_of_app. right. left.
      * intros y. rewrite !elem_of_cons, Hin, elem_of_app, list_elem_of_singleton.
        split.
        -- intros [->|[? ?]]; [split; [by left|done]|]. split; [by right|tauto].
        -- intros [[->|?] ?]; [by left|].
           destruct (decide (y = x)) as [->|]; [by left|right; tauto].
    + destruct (IH l) as (d & -> & Hd & Hin).
      exists d. split_and!; [done|done|].
      intros y. rewrite Hin, elem_of_cons. split; [tauto|].
      intros [[->|?] ?]; [|by split]. exfalso; auto.
Qed.

Lemma add_ids_present l xs : (∀ x, x ∈ xs → x ∈ l) → add_ids l xs = l.
Proof.
  induction xs as [|x xs IH]; intros Hin; [done|].
  rewrite add_ids_cons, bool_decide_false.
  - apply IH. intros y ?. apply Hin. by right.
  - intros Hn. apply Hn, Hin. left.
Qed.

Lemma add_ids_elem l xs x : x ∈ xs → x ∈ add_ids l xs.
Proof.
  intros Hx. destruct (add_ids_appends l xs) as (d & -> & _ & Hin).
  apply elem_of_app. destruct (decide (x ∈ l)); [by left|right].
  by apply Hin.
Qed.

Lemma add_ids_origin l xs y : y ∈ add_ids l xs → y ∈ l ∨ y ∈ xs.
Proof.
  destruct (add_ids_appends l xs) as (d & -> & _ & Hin).
  rewrite elem_of_app, Hin. tauto.
Qed.

Lemma add_ids_prefix l xs : l `prefix_of` add_ids l xs.
Proof.
  destruct (add_ids_appends l xs) as (d & -> & _). by apply prefix_app_r.
Qed.

Lemma list_remove_app_r x l d :
  x ∉ l → list_remove x (l ++ d) = (l ++.) <$> list_remove x d.
Proof.
  induction l as [|y l IH]; simpl; intros Hx.
  - by destruct (list_remove x d).
  - apply not_elem_of_cons in Hx as [? ?]. rewrite decide_False by done.
    rewrite IH by done. by destruct (list_remove x d).
Qed.

Lemma list_remove_kept x y l r :
  list_remove x l = Some r → y ∈ l → y ≠ x → y ∈ r.
Proof.
  revert r. induction l as [|z l IH]; simpl; intros r; [done|].
  destruct (decide (x = z)) as [->|].
  - intros [= <-] [->|?]%elem_of_cons ?; done.
  - destruct (list_remove x l) as [r'|]; [|done].
    intros [= <-] [->|?]%elem_of_cons ?; [left|right; by eapply IH].
Qed.

Lemma remove_ids_sublist l xs : remove_ids l xs `sublist_of` l.
Proof.
  revert l. induction xs as [|x xs IH]; intros l; [done|].
  rewrite remove_ids_cons. destruct (list_remove x l) as [r|] eqn:E; simpl.
  - etrans; [apply IH|]. by eapply list_remove_sublist.
  - apply IH.
Qed.

Lemma remove_ids_kept l xs y : y ∈ l → y ∉ xs → y ∈ remove_ids l xs.
Proof.
  revert l. induction xs as [|x xs IH]; intros l Hy Hn; [done|].
  apply not_elem_of_cons in Hn as [? ?]. rewrite remove_ids_cons.
  apply IH; [|done]. destruct (list_remove x l) as [r|] eqn:E; simpl; [|done].
  by eapply list_remove_kept.
Qed.

Lemma remove_ids_gone l xs x : NoDup l → x ∈ xs → x ∉ remove_ids l xs.
Proof.
  revert l. induction xs as [|y xs IH]; intros l Hl Hx;
    [by apply elem_of_nil in Hx|].
  rewrite remove_ids_cons.
  assert (NoDup (default l (list_remove y l))) as Hl'.
  { destruct (list_remove y l) eqn:E; simpl; [|done].
    by eapply list_remove_NoDup. }
  apply elem_of_cons in Hx as [->|Hx]; [|by apply IH].
  intros Hin. eapply elem_of_sublist in Hin; [|apply remove_ids_sublist].
  destruct (list_remove y l) as [r|] eqn:E; simpl in Hin.
  - exact (list_remove_NoDup_gone _ _ _ Hl E Hin).
  - by apply list_remove_None in E.
Qed.

Lemma remove_ids_absent l xs : (∀ x, x ∈ xs → x ∉ l) → remove_ids l xs = l.
Proof.
  induction xs as [|x xs IH]; intros Hn; [done|].
  rewrite remove_ids_cons.
  assert (list_remove x l = None) as ->
    by (apply list_remove_None, Hn; left).
  apply IH. intros y ?. apply Hn. by right.
Qed.

Lemma remove_ids_app_r l d xs :
  (∀ x, x ∈ xs → x ∉ l) → remove_ids (l ++ d) xs = l ++ remove_ids d xs.
Proof.
  revert d. induction xs as [|x xs IH]; intros d Hn; [done|].
  rewrite !remove_ids_cons, list_remove_app_r by (apply Hn; left).
  destruct (list_remove x d) as [r|]; simpl; apply IH;
    intros y ?; apply Hn; by right.
Qed.

Lemma remove_ids_all d xs :
  NoDup d → (∀ y, y ∈ d → y ∈ xs) → remove_ids d xs = [].
Proof.
  revert d. induction xs as [|x xs IH]; intros d Hd Hin.
  - destruct d as [|y d]; [done|]. specialize (Hin y).
    exfalso. eapply elem_of_nil, Hin. left.
  - rewrite remove_ids_cons. destruct (list_remove x d) as [r|] eqn:E; simpl.
    + apply IH; [by eapply list_remove_NoDup|].
      intros y Hy.
      assert (y ∈ d) as Hyd
        by (eapply elem_of_sublist; [done|by eapply list_remove_sublist]).
      apply Hin in Hyd. apply elem_of_cons in Hyd as [->|?]; [|done].
      exfalso. exact (list_remove_NoDup_gone _ _ _ Hd E Hy).
    + apply IH; [done|]. intros y Hy. specialize (Hin y Hy).
      apply elem_of_cons in Hin as [->|?]; [|done].
      by apply list_remove_None in E.
Qed.

(** Removing what was added, for ids none of which was on the list, gives
    the list back, whether or not an id is named more than once. *)
Lemma remove_ids_add_ids l xs :
  (∀ x, x ∈ xs → x ∉ l) → remove_ids (add_ids l xs) xs = l.
Proof.
  intros Hn. destruct (add_ids_appends l xs) as (d & -> & Hd & Hin).
  rewrite remove_ids_app_r by done.
  rewrite remove_ids_all, app_nil_r; [done|done|].
  intros y Hy. by apply Hin.
Qed.

(** ** The loops of the four list commands, list by list *)

Lemma list_remove_length x l r :
  list_remove x l = Some r → length l = S (length r).
Proof.
  revert r. induction l as [|y l IH]; simpl; intros r; [done|].
  destruct (decide (x = y)); [by intros [= <-]|].
  destruct (list_remove x l) as [r'|]; [|done].
  intros [= <-]. simpl. f_equal. by apply IH.
Qed.

(** Each of the three ignore lists goes through its loop on its own: what
    the loop of [forcelimit_add] leaves of a list is what adding the ids of
    the targets of its kind, in order, gives. *)
Lemma forcelimit_add_loop a st ignores :
  ignore_deref a (foldl forcelimit_add_body st ignores).1
  = add_ids (ignore_deref a st.1)
            (ignore_id <$> filter (λ t, ignore_alias t = a) ignores).
Proof.
  revert st. induction ignores as [|t ts IH]; intros st; [done|].
  simpl. rewrite IH, filter_cons. unfold forcelimit_add_body.
  destruct (decide (ignore_alias t = a)) as [<-|Hne].
  - rewrite fmap_cons, add_ids_cons.
    case_bool_decide; simpl; [|done]. by destruct (ignore_alias t).
  - case_bool_decide; simpl; [|done].
    by destruct (ignore_alias t), a.
Qed.

Lemma forcelimit_remove_loop a st ignores :
  ignore_deref a (foldl forcelimit_remove_body st ignores).1
  = remove_ids (ignore_deref a st.1)
               (ignore_id <$> filter (λ t, ignore_alias t = a) ignores).
Proof.
  revert st. induction ignores as [|t ts IH]; intros st; [done|].
  simpl. rewrite IH, filter_cons. unfold forcelimit_remove_body.
  destruct (decide (ignore_alias t = a)) as [<-|Hne].
  - rewrite fmap_cons, remove_ids_cons.
    destruct (list_remove _ _); simpl; [|done]. by destruct (ignore_alias t).
  - destruct (list_remove _ _); simpl; [|done].
    by destruct (ignore_alias t), a.
Qed.

Lemma vip_add_loop a st vips :
  vip_deref a (foldl vip_add_body st vips).1
  = add_ids (vip_deref a st.1) (vip_id <$> filter (λ t, vip_alias t = a) vips).
Proof.
  revert st. induction vips as [|t ts IH]; intros st; [done|].
  simpl. rewrite IH, filter_cons. unfold vip_add_body.
  destruct (decide (vip_alias t = a)) as [<-|Hne].
  - rewrite fmap_cons, add_ids_cons.
    case_bool_decide; simpl; [|done]. by destruct (vip_alias t).
  - case_bool_decide; simpl; [|done].
    by destruct (vip_alias t), a.
Qed.

Lemma vip_remove_loop a st vips :
  vip_deref a (foldl vip_remove_body st vips).1
  = remove_ids (vip_deref a st.1)
               (vip_id <$> filter (λ t, vip_alias t = a) vips).
Proof.
  revert st. induction vips as [|t ts IH]; intros st; [done|].
  simpl. rewrite IH, filter_cons. unfold vip_remove_body.
  destruct (decide (vip_alias t = a)) as [<-|Hne].
  - rewrite fmap_cons, remove_ids_cons.
    destruct (list_remove _ _); simpl; [|done]. by destruct (vip_alias t).
  - destruct (list_remove _ _); simpl; [|done].
    by destruct (vip_alias t), a.
Qed.

Lemma filter_ext_list {A} (P Q : A → Prop) `{∀ x, Decision (P x)}
    `{∀ x, Decision (Q x)} (l : list A) :
  (∀ x, P x ↔ Q x) → filter P l = filter Q l.
Proof.
  intros HPQ. induction l as [|x l IH]; [done|].
  rewrite !filter_cons, IH.
  destruct (decide (P x)) as [HP|HP], (decide (Q x)) as [HQ|HQ]; try done;
    [by apply HPQ in HP|by apply HPQ in HQ].
Qed.

Lemma filter_none {A} (P : A → Prop) `{∀ x, Decision (P x)} (l : list A) :
  (∀ x, ¬ P x) → filter P l = [].
Proof.
  intros HP. induction l as [|x l IH]; [done|].
  rewrite filter_cons, IH. destruct (decide (P x)); [|done]. by destruct (HP x).
Qed.

(** The five lists after each of the four commands. *)
Lemma forcelimit_add_lists k conf ignores :
  get_list k (forcelimit_add conf ignores).1
  = add_ids (get_list k conf) (ignore_ids k ignores).
Proof.
  unfold forcelimit_add, ignore_ids. cbn [fst].
  destruct k.
  - change (get_list IgnoreMembers (write_ignore ?loc conf))
      with (ignore_deref AliasMember loc).
    rewrite forcelimit_add_loop. simpl. do 2 f_equal.
    apply filter_ext_list. intros []; simpl; naive_solver.
  - change (get_list IgnoreRoles (write_ignore ?loc conf))
      with (ignore_deref AliasRole loc).
    rewrite forcelimit_add_loop. simpl. do 2 f_equal.
    apply filter_ext_list. intros []; simpl; naive_solver.
  - change (get_list IgnoreVoiceChannels (write_ignore ?loc conf))
      with (ignore_deref AliasVc loc).
    rewrite forcelimit_add_loop. simpl. do 2 f_equal.
    apply filter_ext_list. intros []; simpl; naive_solver.
  - rewrite filter_none by (by intros []). done.
  - rewrite filter_none by (by intros []). done.
Qed.

Lemma forcelimit_remove_lists k conf ignores :
  get_list k (forcelimit_remove conf ignores).1
  = remove_ids (get_list k conf) (ignore_ids k ignores).
Proof.
  unfold forcelimit_remove, ignore_ids. cbn [fst].
  destruct k.
  - change (get_list IgnoreMembers (write_ignore ?loc conf))
      with (ignore_deref AliasMember loc).
    rewrite forcelimit_remove_loop. simpl. do 2 f_equal.
    apply filter_ext_list. intros []; simpl; naive_solver.
  - change (get_list IgnoreRoles (write_ignore ?loc conf))
      with (ignore_deref AliasRole loc).
    rewrite forcelimit_remove_loop. simpl. do 2 f_equal.
    apply filter_ext_list. intros []; simpl; naive_solver.
  - change (get_list IgnoreVoiceChannels (write_ignore ?loc conf))
      with (ignore_deref AliasVc loc).
    rewrite forcelimit_remove_loop. simpl. do 2 f_equal.
    apply filter_ext_list. intros []; simpl; naive_solver.
  - rewrite filter_none by (by intros []). done.
  - rewrite filter_none by (by intros []). done.
Qed.

Lemma vip_add_lists k conf vips :
  get_list k (vip_add conf vips).1 = add_ids (get_list k conf) (vip_ids k vips).
Proof.
  unfold vip_add, vip_ids. cbn [fst].
  destruct k.
  - rewrite filter_none by (by intros []). done.
  - rewrite filter_none by (by intros []). done.
  - rewrite filter_none by (by intros []). done.
  - change (get_list VipMembers (write_vip ?loc conf))
      with (vip_deref VAliasMember loc).
    rewrite vip_add_loop. simpl. do 2 f_equal.
    apply filter_ext_list. intros []; simpl; naive_solver.
  - change (get_list VipRoles (write_vip ?loc conf))
      with (vip_deref VAliasRole loc).
    rewrite vip_add_loop. simpl. do 2 f_equal.
    apply filter_ext_list. intros []; simpl; naive_solver.
Qed.

Lemma vip_remove_lists k conf vips :
  get_list k (vip_remove conf vips).1
  = remove_ids (get_list k conf) (vip_ids k vips).
Proof.
  unfold vip_remove, vip_ids. cbn [fst].
  destruct k.
  - rewrite filter_none by (by intros []). done.
  - rewrite filter_none by (by intros []). done.
  - rewrite filter_none by (by intros []). done.
  - change (get_list VipMembers (write_vip ?loc conf))
      with (vip_deref VAliasMember loc).
    rewrite vip_remove_loop. simpl. do 2 f_equal.
    apply filter_ext_list. intros []; simpl; naive_solver.
  - change (get_list VipRoles (write_vip ?loc conf))
      with (vip_deref VAliasRole loc).
    rewrite vip_remove_loop. simpl. do 2 f_equal.
    apply filter_ext_list. intros []; simpl; naive_solver.
Qed.

(** The toggles are not touched by a list command. *)
Lemma list_commands_keep_toggles conf :
  (∀ ignores,
     forcelimit_enabled (forcelimit_add conf ignores).1 = forcelimit_enabled conf
     ∧ vip_enabled (forcelimit_add conf ignores).1 = vip_enabled conf
     ∧ forcelimit_enabled (forcelimit_remove conf ignores).1
       = forcelimit_enabled conf
     ∧ vip_enabled (forcelimit_remove conf ignores).1 = vip_enabled conf)
  ∧ (∀ vips,
       forcelimit_enabled (vip_add conf vips).1 = forcelimit_enabled conf
       ∧ vip_enabled (vip_add conf vips).1 = vip_enabled conf
       ∧ forcelimit_enabled (vip_remove conf vips).1 = forcelimit_enabled conf
       ∧ vip_enabled (vip_remove conf vips).1 = vip_enabled conf).
Proof. done. Qed.

(** Two configurations with the same toggles and the same five lists are
    the same. *)
Lemma conf_eq c1 c2 :
  forcelimit_enabled c1 = forcelimit_enabled c2 →
  vip_enabled c1 = vip_enabled c2 →
  (∀ k, get_list k c1 = get_list k c2) → c1 = c2.
Proof.
  intros He Hv Hl. destruct c1, c2; simpl in *.
  pose proof (Hl IgnoreMembers). pose proof (Hl IgnoreRoles).
  pose proof (Hl IgnoreVoiceChannels). pose proof (Hl VipMembers).
  pose proof (Hl VipRoles). simpl in *. congruence.
Qed.

Lemma elem_of_ignore_ids k ignores x :
  x ∈ ignore_ids k ignores
  ↔ ∃ t, t ∈ ignores ∧ ignore_category t = k ∧ ignore_id t = x.
Proof.
  unfold ignore_ids. rewrite list_elem_of_fmap. split.
  - intros (t & -> & [? ?]%list_elem_of_filter). eauto.
  - intros (t & ? & ? & <-). exists t. split; [done|].
    by apply list_elem_of_filter.
Qed.

Lemma elem_of_vip_ids k vips x :
  x ∈ vip_ids k vips ↔ ∃ t, t ∈ vips ∧ vip_category t = k ∧ vip_id t = x.
Proof.
  unfold vip_ids. rewrite list_elem_of_fmap. split.
  - intros (t & -> & [? ?]%list_elem_of_filter). eauto.
  - intros (t & ? & ? & <-). exists t. split; [done|].
    by apply list_elem_of_filter.
Qed.

(** A loop whose targets change nothing only collects their messages. *)
Lemma forcelimit_add_loop_present loc msgs ignores :
  (∀ t, t ∈ ignores → ignore_id t ∈ ignore_deref (ignore_alias t) loc) →
  foldl forcelimit_add_body (loc, msgs) ignores
  = (loc, msgs ++ ((λ t, ignore_str t +:+ " is already on ignore list")
                     <$> ignores)).
Proof.
  revert msgs. induction ignores as [|t ts IH]; intros msgs Hin.
  - by rewrite app_nil_r.
  - simpl. unfold forcelimit_add_body at 2. simpl.
    rewrite bool_decide_false by (intros Hn; apply Hn, Hin; left).
    rewrite IH by (intros t' ?; apply Hin; by right).
    by rewrite <- (assoc_L (++)).
Qed.

Lemma forcelimit_remove_loop_absent loc msgs ignores :
  (∀ t, t ∈ ignores → ignore_id t ∉ ignore_deref (ignore_alias t) loc) →
  foldl forcelimit_remove_body (loc, msgs) ignores
  = (loc, msgs ++ ((λ t, ignore_str t +:+ " is not on ignore list")
                     <$> ignores)).
Proof.
  revert msgs. induction ignores as [|t ts IH]; intros msgs Hin.
  - by rewrite app_nil_r.
  - simpl. unfold forcelimit_remove_body at 2. simpl.
    assert (list_remove (ignore_id t) (ignore_deref (ignore_alias t) loc) = None)
      as -> by (apply list_remove_None, Hin; left).
    rewrite IH by (intros t' ?; apply Hin; by right).
    by rewrite <- (assoc_L (++)).
Qed.

Lemma vip_add_loop_present loc msgs vips :
  (∀ t, t ∈ vips → vip_id t ∈ vip_deref (vip_alias t) loc) →
  foldl vip_add_body (loc, msgs) vips
  = (loc, msgs ++ ((λ t, vip_str t +:+ " is already on list") <$> vips)).
Proof.
  revert msgs. induction vips as [|t ts IH]; intros msgs Hin.
  - by rewrite app_nil_r.
  - simpl. unfold vip_add_body at 2. simpl.
    rewrite bool_decide_false by (intros Hn; apply Hn, Hin; left).
    rewrite IH by (intros t' ?; apply Hin; by right).
    by rewrite <- (assoc_L (++)).
Qed.

Lemma vip_remove_loop_absent loc msgs vips :
  (∀ t, t ∈ vips → vip_id t ∉ vip_deref (vip_alias t) loc) →
  foldl vip_remove_body (loc, msgs) vips
  = (loc, msgs ++ ((λ t, vip_str t +:+ " is not on list") <$> vips)).
Proof.
  revert msgs. induction vips as [|t ts IH]; intros msgs Hin.
  - by rewrite app_nil_r.
  - simpl. unfold vip_remove_body at 2. simpl.
    assert (list_remove (vip_id t) (vip_deref (vip_alias t) loc) = None)
      as -> by (apply list_remove_None, Hin; left).
    rewrite IH by (intros t' ?; apply Hin; by right).
    by rewrite <- (assoc_L (++)).
Qed.

(** Every iteration either changes the length of one list by one or sends
    one message. *)

Lemma forcelimit_add_loop_count st ignores :
  (ignore_size (foldl forcelimit_add_body st ignores).1
   + length (foldl forcelimit_add_body st ignores).2
   = ignore_size st.1 + length st.2 + length ignores)%nat.
Proof.
  revert st. induction ignores as [|t ts IH]; intros st; simpl; [lia|].
  rewrite IH. unfold forcelimit_add_body, ignore_size.
  case_bool_decide; destruct t; simpl; rewrite ?length_app; simpl; lia.
Qed.

Lemma forcelimit_remove_loop_count st ignores :
  (ignore_size (foldl forcelimit_remove_body st ignores).1 + length st.2
   + length ignores
   = ignore_size st.1 + length (foldl forcelimit_remove_body st ignores).2)%nat.
Proof.
  revert st. induction ignores as [|t ts IH]; intros st; simpl; [lia|].
  specialize (IH (forcelimit_remove_body st t)).
  assert (ignore_size (forcelimit_remove_body st t).1 = ignore_size st.1
          ∧ length (forcelimit_remove_body st t).2 = length st.2 + 1
          ∨ ignore_size (forcelimit_remove_body st t).1 + 1 = ignore_size st.1
            ∧ length (forcelimit_remove_body st t).2 = length st.2)%nat
    as Hstep.
  { unfold forcelimit_remove_body, ignore_size.
    destruct (list_remove _ _) as [r|] eqn:E; simpl.
    - right. apply list_remove_length in E.
      destruct t; simpl in *; lia.
    - left. rewrite length_app. simpl. lia. }
  lia.
Qed.

Lemma vip_add_loop_count st vips :
  (vip_size (foldl vip_add_body st vips).1
   + length (foldl vip_add_body st vips).2
   = vip_size st.1 + length st.2 + length vips)%nat.
Proof.
  revert st. induction vips as [|t ts IH]; intros st; simpl; [lia|].
  rewrite IH. unfold vip_add_body, vip_size.
  case_bool_decide; destruct t; simpl; rewrite ?length_app; simpl; lia.
Qed.

Lemma vip_remove_loop_count st vips :
  (vip_size (foldl vip_remove_body st vips).1 + length st.2 + length vips
   = vip_size st.1 + length (foldl vip_remove_body st vips).2)%nat.
Proof.
  revert st. induction vips as [|t ts IH]; intros st; simpl; [lia|].
  specialize (IH (vip_remove_body st t)).
  assert (vip_size (vip_remove_body st t).1 = vip_size st.1
          ∧ length (vip_remove_body st t).2 = length st.2 + 1
          ∨ vip_size (vip_remove_body st t).1 + 1 = vip_size st.1
            ∧ length (vip_remove_body st t).2 = length st.2)%nat
    as Hstep.
  { unfold vip_remove_body, vip_size.
    destruct (list_remove _ _) as [r|] eqn:E; simpl.
    - right. apply list_remove_length in E.
      destruct t; simpl in *; lia.
    - left. rewrite length_app. simpl. lia. }
  lia.
Qed.

(** ** Commands that name several targets *)

Lemma lists_NoDup_get_list conf k : lists_NoDup conf → NoDup (get_list k conf).
Proof. intros (?&?&?&?&?). by destruct k. Qed.



(** X2. Running an add command a second time with the same targets changes
    nothing and reports every target, in order, as already listed. *)
Theorem add_command_twice (conf : GuildConf) :
  (∀ ignores : list MemberOrRoleorVoiceChannel,
     forcelimit_add (forcelimit_add conf ignores).1 ignores
     = ((forcelimit_add conf ignores).1,
        ((λ t, ignore_str t +:+ " is already on ignore list") <$> ignores)
        ++ ["Ignore list updated"]))
  ∧ (∀ vips : list MemberOrRole,
       vip_add (vip_add conf vips).1 vips
       = ((vip_add conf vips).1,
          ((λ t, vip_str t +:+ " is already on list") <$> vips)
          ++ ["VIP list updated"])).
Proof.
  split.
  - intros ignores.
    assert (∀ t, t ∈ ignores →
              ignore_id t ∈ ignore_deref (ignore_alias t)
                              (read_ignore (forcelimit_add conf ignores).1))
      as Hin.
    { intros t Ht. rewrite ignore_deref_read, forcelimit_add_lists.
      apply add_ids_elem, elem_of_ignore_ids. eauto. }
    generalize dependent (forcelimit_add conf ignores).1. intros conf' Hin.
    unfold forcelimit_add. rewrite forcelimit_add_loop_present by done.
    simpl. by rewrite write_read_ignore.
  - intros vips.
    assert (∀ t, t ∈ vips →
              vip_id t ∈ vip_deref (vip_alias t)
                           (read_vip (vip_add conf vips).1)) as Hin.
    { intros t Ht. rewrite vip_deref_read, vip_add_lists.
      apply add_ids_elem, elem_of_vip_ids. eauto. }
    generalize dependent (vip_add conf vips).1. intros conf' Hin.
    unfold vip_add. rewrite vip_add_loop_present by done.
    simpl. by rewrite write_read_vip.
Qed.

(** X3. On lists without duplicates (as every stored configuration has them),
    none of the ids a remove command names is on the list of its kind
    afterwards. *)
Theorem remove_command_clears_named_ids (conf : GuildConf) :
  lists_NoDup conf →
  (∀ (ignores : list MemberOrRoleorVoiceChannel) t,
     t ∈ ignores →
     ignore_id t ∉ get_list (ignore_category t) (forcelimit_remove conf ignores).1)
  ∧ (∀ (vips : list MemberOrRole) t,
       t ∈ vips →
       vip_id t ∉ get_list (vip_category t) (vip_remove conf vips).1).
Proof.
  intros Hnd. split.
  - intros ignores t Ht. rewrite forcelimit_remove_lists.
    apply remove_ids_gone; [by apply lists_NoDup_get_list|].
    apply elem_of_ignore_ids. eauto.
  - intros vips t Ht. rewrite vip_remove_lists.
    apply remove_ids_gone; [by apply lists_NoDup_get_list|].
    apply elem_of_vip_ids. eauto.
Qed.

Lemma remove_command_clears_named_ids_witness :
  get_list IgnoreMembers
    (forcelimit_remove conf_ignoring_1_2
       [IgnoreMember 2 "b"; IgnoreRole 2 "r"; IgnoreMember 2 "b"]).1 = [1]
  ∧ 2 ∉ get_list IgnoreMembers
          (forcelimit_remove conf_ignoring_1_2
             [IgnoreMember 2 "b"; IgnoreRole 2 "r"; IgnoreMember 2 "b"]).1.
Proof.
  split; [reflexivity|].
  assert (lists_NoDup conf_ignoring_1_2) as Hnd.
  { repeat split; compute_done. }
  destruct (remove_command_clears_named_ids conf_ignoring_1_2 Hnd) as [Hi _].
  apply (Hi [IgnoreMember 2 "b"; IgnoreRole 2 "r"; IgnoreMember 2 "b"]
            (IgnoreMember 2 "b")).
  left.
Defined.

(** X4. A remove command deletes nothing but named ids: each list keeps its
    remaining entries in their order, and an entry that no target of its
    kind names stays. *)
Theorem remove_command_keeps_the_rest (conf : GuildConf) :
  (∀ (ignores : list MemberOrRoleorVoiceChannel) (k : Category),
     get_list k (forcelimit_remove conf ignores).1 `sublist_of` get_list k conf
     ∧ (∀ x, x ∈ get_list k conf →
             (∀ t, t ∈ ignores → ignore_category t = k → ignore_id t ≠ x) →
             x ∈ get_list k (forcelimit_remove conf ignores).1))
  ∧ (∀ (vips : list MemberOrRole) (k : Category),
       get_list k (vip_remove conf vips).1 `sublist_of` get_list k conf
       ∧ (∀ x, x ∈ get_list k conf →
               (∀ t, t ∈ vips → vip_category t = k → vip_id t ≠ x) →
               x ∈ get_list k (vip_remove conf vips).1)).
Proof.
  split.
  - intros ignores k. rewrite forcelimit_remove_lists. split.
    + apply remove_ids_sublist.
    + intros x Hx Hn. apply remove_ids_kept; [done|].
      intros (t & ? & ? & ?)%elem_of_ignore_ids. by eapply Hn.
  - intros vips k. rewrite vip_remove_lists. split.
    + apply remove_ids_sublist.
    + intros x Hx Hn. apply remove_ids_kept; [done|].
      intros (t & ? & ? & ?)%elem_of_vip_ids. by eapply Hn.
Qed.

(** X5. A remove command none of whose targets is listed leaves the
    configuration as it is and reports every target, in order, as not
    listed. *)
Theorem remove_command_of_unlisted_targets (conf : GuildConf) :
  (∀ ignores : list MemberOrRoleorVoiceChannel,
     (∀ t, t ∈ ignores → ignore_id t ∉ get_list (ignore_category t) conf) →
     forcelimit_remove conf ignores
     = (conf, ((λ t, ignore_str t +:+ " is not on ignore list") <$> ignores)
              ++ ["Ignore list updated"]))
  ∧ (∀ vips : list MemberOrRole,
       (∀ t, t ∈ vips → vip_id t ∉ get_list (vip_category t) conf) →
       vip_remove conf vips
       = (conf, ((λ t, vip_str t +:+ " is not on list") <$> vips)
                ++ ["VIP list updated"])).
Proof.
  split.
  - intros ignores Hn. unfold forcelimit_remove.
    rewrite forcelimit_remove_loop_absent
      by (intros t ?; rewrite ignore_deref_read; by apply Hn).
    simpl. by rewrite write_read_ignore.
  - intros vips Hn. unfold vip_remove.
    rewrite vip_remove_loop_absent
      by (intros t ?; rewrite vip_deref_read; by apply Hn).
    simpl. by rewrite write_read_vip.
Qed.

Lemma remove_command_of_unlisted_targets_witness :
  forcelimit_remove conf_ignoring_1_2 [IgnoreRole 1 "r"; IgnoreMember 3 "c"]
  = (conf_ignoring_1_2,
     ["r is not on ignore list"; "c is not on ignore list";
      "Ignore list updated"]).
Proof.
  apply (remove_command_of_unlisted_targets conf_ignoring_1_2).
  intros t Ht.
  repeat (apply elem_of_cons in Ht as [->|Ht]); [| |by apply elem_of_nil in Ht];
    compute_done.
Defined.

(** X6. Adding targets none of whose ids is listed, then removing the same
    targets, gives back the configuration exactly, whether or not a target
    is named more than once. *)
Theorem add_then_remove_of_unlisted_targets (conf : GuildConf) :
  (∀ ignores : list MemberOrRoleorVoiceChannel,
     (∀ t, t ∈ ignores → ignore_id t ∉ get_list (ignore_category t) conf) →
     (forcelimit_remove (forcelimit_add conf ignores).1 ignores).1 = conf)
  ∧ (∀ vips : list MemberOrRole,
       (∀ t, t ∈ vips → vip_id t ∉ get_list (vip_category t) conf) →
       (vip_remove (vip_add conf vips).1 vips).1 = conf).
Proof.
  split.
  - intros ignores Hn. apply conf_eq; [done|done|]. intros k.
    rewrite forcelimit_remove_lists, forcelimit_add_lists.
    apply remove_ids_add_ids.
    intros x (t & ? & <- & <-)%elem_of_ignore_ids. by apply Hn.
  - intros vips Hn. apply conf_eq; [done|done|]. intros k.
    rewrite vip_remove_lists, vip_add_lists.
    apply remove_ids_add_ids.
    intros x (t & ? & <- & <-)%elem_of_vip_ids. by apply Hn.
Qed.

Lemma add_then_remove_of_unlisted_targets_witness :
  (forcelimit_remove
     (forcelimit_add conf_ignoring_1_2
        [IgnoreMember 3 "c"; IgnoreRole 1 "r"; IgnoreMember 3 "c"]).1
     [IgnoreMember 3 "c"; IgnoreRole 1 "r"; IgnoreMember 3 "c"]).1
  = conf_ignoring_1_2.
Proof.
  apply (add_then_remove_of_unlisted_targets conf_ignoring_1_2).
  intros t Ht.
  repeat (apply elem_of_cons in Ht as [->|Ht]); [| | |by apply elem_of_nil in Ht];
    compute_done.
Defined.

Lemma total_entries_write_ignore loc conf :
  total_entries (write_ignore loc conf)
  = (ignore_size loc + length (vip_member_list conf)
     + length (vip_role_list conf))%nat.
Proof. reflexivity. Qed.

Lemma total_entries_write_vip loc conf :
  total_entries (write_vip loc conf)
  = (ignore_size (read_ignore conf) + vip_size loc)%nat.
Proof. unfold total_entries, ignore_size, vip_size. simpl. lia. Qed.

Lemma total_entries_read conf :
  total_entries conf
  = (ignore_size (read_ignore conf) + vip_size (read_vip conf))%nat.
Proof. unfold total_entries, ignore_size, vip_size. simpl. lia. Qed.

(** X7. Every target of a command is accounted for exactly once: an add
    command either appends its id or sends one "already" message for it, a
    remove command either deletes one entry or sends one "not on list"
    message for it; the closing "updated" message comes on top. *)
Theorem commands_account_for_every_target (conf : GuildConf) :
  (∀ ignores : list MemberOrRoleorVoiceChannel,
     (total_entries (forcelimit_add conf ignores).1
      + length (forcelimit_add conf ignores).2
      = total_entries conf + length ignores + 1)%nat
     ∧ (total_entries (forcelimit_remove conf ignores).1 + length ignores + 1
        = total_entries conf + length (forcelimit_remove conf ignores).2)%nat)
  ∧ (∀ vips : list MemberOrRole,
       (total_entries (vip_add conf vips).1 + length (vip_add conf vips).2
        = total_entries conf + length vips + 1)%nat
       ∧ (total_entries (vip_remove conf vips).1 + length vips + 1
          = total_entries conf + length (vip_remove conf vips).2)%nat).
Proof.
  split.
  - intros ignores. unfold forcelimit_add, forcelimit_remove. cbn [fst snd].
    rewrite !total_entries_write_ignore, !length_app, (total_entries_read conf).
    pose proof (forcelimit_add_loop_count (read_ignore conf, []) ignores).
    pose proof (forcelimit_remove_loop_count (read_ignore conf, []) ignores).
    unfold vip_size. simpl in *. lia.
  - intros vips. unfold vip_add, vip_remove. cbn [fst snd].
    rewrite !total_entries_write_vip, !length_app, (total_entries_read conf).
    pose proof (vip_add_loop_count (read_vip conf, []) vips).
    pose proof (vip_remove_loop_count (read_vip conf, []) vips).
    simpl in *. lia.
Qed.

(** ** The toggles *)

Lemma run_command_forcelimit_enabled conf c :
  forcelimit_enabled (run_command conf c)
  = default (forcelimit_enabled conf) (forcelimit_toggle c).
Proof.
  destruct c; simpl; try done;
    unfold forcelimit_enable, forcelimit_disable, vip_enable, vip_disable;
    destruct conf as [fe ? ? ? ve ? ?]; by destruct fe, ve.
Qed.

Lemma run_command_vip_enabled conf c :
  vip_enabled (run_command conf c)
  = default (vip_enabled conf) (vip_toggle c).
Proof.
  destruct c; simpl; try done;
    unfold forcelimit_enable, forcelimit_disable, vip_enable, vip_disable;
    destruct conf as [fe ? ? ? ve ? ?]; by destruct fe, ve.
Qed.

(** What a command leaves of a list depends on the lists alone. *)
Lemma toggle_command_lists conf c k :
  is_list_command c = false → get_list k (run_command conf c) = get_list k conf.
Proof.
  destruct c; simpl; try done; intros _;
    unfold forcelimit_enable, forcelimit_disable, vip_enable, vip_disable;
    destruct conf as [fe ? ? ? ve ? ?]; by destruct fe, ve, k.
Qed.

Lemma run_command_lists c1 c2 c :
  (∀ k, get_list k c1 = get_list k c2) →
  ∀ k, get_list k (run_command c1 c) = get_list k (run_command c2 c).
Proof.
  intros Hl k. destruct (is_list_command c) eqn:Hc.
  - destruct c; try done; cbn [run_command].
    + by rewrite !forcelimit_add_lists, Hl.
    + by rewrite !forcelimit_remove_lists, Hl.
    + by rewrite !vip_add_lists, Hl.
    + by rewrite !vip_remove_lists, Hl.
  - by rewrite !toggle_command_lists.
Qed.

Lemma run_commands_lists c1 c2 cs :
  (∀ k, get_list k c1 = get_list k c2) →
  ∀ k, get_list k (run_commands c1 cs)
       = get_list k (run_commands c2 (filter (λ c, is_list_command c = true) cs)).
Proof.
  unfold run_commands. revert c1 c2.
  induction cs as [|c cs IH]; intros c1 c2 Hl k; [by apply Hl|].
  rewrite filter_cons. simpl. destruct (decide (is_list_command c = true)) as [|Hc].
  - simpl. apply IH. by apply run_command_lists.
  - apply IH. intros k'. rewrite toggle_command_lists; [done|].
    by destruct (is_list_command c).
Qed.

(** X8. The two toggles and the five lists go their own ways through a session
    of commands: each toggle ends as its module's last enable or disable
    command set it (as it was, if there is none), whatever else was run;
    and the lists end as if the enable and disable commands had not been
    run. *)
Theorem toggles_and_lists_are_independent (conf : GuildConf)
    (cs : list Command) :
  forcelimit_enabled (run_commands conf cs)
  = last_toggle forcelimit_toggle (forcelimit_enabled conf) cs
  ∧ vip_enabled (run_commands conf cs)
    = last_toggle vip_toggle (vip_enabled conf) cs
  ∧ ∀ k, get_list k (run_commands conf cs)
         = get_list k (run_commands conf
                         (filter (λ c, is_list_command c = true) cs)).
Proof.
  split_and!.
  - unfold run_commands, last_toggle. revert conf.
    induction cs as [|c cs IH]; intros conf; [done|].
    simpl. by rewrite IH, run_command_forcelimit_enabled.
  - unfold run_commands, last_toggle. revert conf.
    induction cs as [|c cs IH]; intros conf; [done|].
    simpl. by rewrite IH, run_command_vip_enabled.
  - by apply run_commands_lists.
Qed.

(** X9. Applying a toggle command a second time changes nothing and answers
    "already"; and undoing a toggle command that took effect gives back the
    configuration. *)
Theorem toggle_twice_and_back (conf : GuildConf) :
  forcelimit_enable (forcelimit_enable conf).1
  = ((forcelimit_enable conf).1,
     ["ForceLimit module is already enabled on this server"])
  ∧ forcelimit_disable (forcelimit_disable conf).1
    = ((forcelimit_disable conf).1,
       ["ForceLimit module is already disabled on this server"])
  ∧ vip_enable (vip_enable conf).1
    = ((vip_enable conf).1, ["VIP module is already enabled on this server"])
  ∧ vip_disable (vip_disable conf).1
    = ((vip_disable conf).1, ["VIP module is already disabled on this server"])
  ∧ (forcelimit_enabled conf = false →
     (forcelimit_disable (forcelimit_enable conf).1).1 = conf)
  ∧ (forcelimit_enabled conf = true →
     (forcelimit_enable (forcelimit_disable conf).1).1 = conf)
  ∧ (vip_enabled conf = false → (vip_disable (vip_enable conf).1).1 = conf)
  ∧ (vip_enabled conf = true → (vip_enable (vip_disable conf).1).1 = conf).
Proof.
  unfold forcelimit_enable, forcelimit_disable, vip_enable, vip_disable.
  destruct conf as [fe ? ? ? ve ? ?]; destruct fe, ve; simpl;
    split_and!; done.
Qed.

(** ** The listener: what each half adds to the trace *)

Lemma prefix_of_three {A} (l : list A) (a b c : A) :
  l `prefix_of` [a; b; c] → l = [] ∨ l = [a] ∨ l = [a; b] ∨ l = [a; b; c].
Proof.
  intros [k Hk].
  destruct l as [|x [|y [|z [|w l]]]]; simplify_eq/=; auto.
Qed.

(** The VIP half only appends capacity edits (at most two) and their log
    lines. *)
Lemma vip_step_suffix conf member before after host tr :
  ∃ s, (vip_step conf member before after host tr).1 = tr ++ s
       ∧ host_calls s = edit_call <$> capacity_actions s
       ∧ (length (capacity_actions s) ≤ 2)%nat.
Proof.
  unfold vip_step, _vip_check, vip_leave, vip_join, edit.
  assert (∃ s, tr = tr ++ s
               ∧ host_calls s = edit_call <$> capacity_actions s
               ∧ (length (capacity_actions s) ≤ 2)%nat) as Hidle.
  { exists []. rewrite app_nil_r. split_and!; [done|done|simpl; lia]. }
  destruct (vip_enabled conf); [|done].
  destruct (is_not _ _); [|done].
  destruct (_ || _); [|done].
  destruct (channel before) as [x|], (channel after) as [y|];
    repeat case_bool_decide; run; rewrite <- ?(assoc_L (++)); simpl;
    first [ done
          | eexists; split; [reflexivity|]; simpl; split; [done|lia] ].
Qed.

(** The ForceLimit half appends a beginning of the sequence create, move,
    delete, all three for the channel the host returned; when it ends
    normally it has run the whole sequence or none of it. *)
Lemma forcelimit_step_suffix conf member before after host tr :
  ∃ g ow vc s,
    (forcelimit_step conf member before after host tr).1 = tr ++ s
    ∧ host_calls s
      `prefix_of` [CreateVoiceChannel g temporary_channel_name ow;
                   MoveTo (member_id member) vc; ChannelDelete vc]
    ∧ capacity_actions s = []
    ∧ created_channels s
      = (if bool_decide (2 ≤ length (host_calls s))%nat then [vc] else [])
    ∧ ((forcelimit_step conf member before after host tr).2 = Done tt →
       (host_calls s = [] ∧ deleted_channels s = [])
       ∨ (length (host_calls s) = 3%nat ∧ deleted_channels s = [vc])).
Proof.
  unfold forcelimit_step, _forcelimit_check.
  destruct (forcelimit_enabled conf);
    [|exists 0, [], 0, []; rewrite app_nil_r; split_and!; try done;
      [apply prefix_nil|by left]].
  destruct (channel after) as [c|];
    [|exists 0, [], 0, []; rewrite app_nil_r; split_and!; try done;
      [apply prefix_nil|by left]].
  destruct (over_limit c);
    [|exists 0, [], 0, []; rewrite app_nil_r; split_and!; try done;
      [apply prefix_nil|by left]].
  destruct (ignored conf member c);
    [exists 0, [], 0, []; rewrite app_nil_r; split_and!; try done;
     [apply prefix_nil|by left]|].
  destruct (host tr (CreateVoiceChannel (guild_id c) temporary_channel_name
                       [(default_role c, false); (me c, true)]))
    as [vc|e] eqn:Hcreate.
  - exists (guild_id c), [(default_role c, false); (me c, true)], vc.
    run; simplify_eq; rewrite <- ?(assoc_L (++)); simpl;
      (eexists; split; [reflexivity|]); simpl; split_and!; try done;
      try (by eexists); by right.
  - exists (guild_id c), [(default_role c, false); (me c, true)], 0.
    run; simplify_eq; rewrite <- ?(assoc_L (++)); simpl;
      (eexists; split; [reflexivity|]); simpl; split_and!; try done;
      by eexists.
Qed.

Lemma created_channels_app tr s :
  created_channels (tr ++ s) = created_channels tr ++ created_channels s.
Proof. apply omap_app. Qed.

Lemma deleted_channels_app tr s :
  deleted_channels (tr ++ s) = deleted_channels tr ++ deleted_channels s.
Proof. apply omap_app. Qed.

Lemma capacity_actions_app tr s :
  capacity_actions (tr ++ s) = capacity_actions tr ++ capacity_actions s.
Proof. apply omap_app. Qed.

Lemma host_calls_app tr s : host_calls (tr ++ s) = host_calls tr ++ host_calls s.
Proof. apply omap_app. Qed.

Lemma created_channels_of_edits s :
  host_calls s = edit_call <$> capacity_actions s →
  created_channels s = [] ∧ deleted_channels s = [].
Proof.
  induction s as [|[[] a|] s IH]; simpl; try done.
  - intros [= Hs]. by apply IH.
  - destruct (capacity_actions s); done.
  - destruct (capacity_actions s); done.
  - destruct (capacity_actions s); done.
Qed.

(** The whole trace of an evaluation: the edits of the VIP half, then the
    calls of the ForceLimit half. *)
Lemma evaluate_trace host conf member before after :
  ∃ g ow vc s1 s2,
    (evaluate host conf member before after).1 = s1 ++ s2
    ∧ host_calls s1 = edit_call <$> capacity_actions s1
    ∧ (length (capacity_actions s1) ≤ 2)%nat
    ∧ host_calls s2
      `prefix_of` [CreateVoiceChannel g temporary_channel_name ow;
                   MoveTo (member_id member) vc; ChannelDelete vc]
    ∧ capacity_actions s2 = []
    ∧ created_channels s2
      = (if bool_decide (2 ≤ length (host_calls s2))%nat then [vc] else [])
    ∧ ((evaluate host conf member before after).2 = Done tt →
       (host_calls s2 = [] ∧ deleted_channels s2 = [])
       ∨ (length (host_calls s2) = 3%nat ∧ deleted_channels s2 = [vc])).
Proof.
  rewrite evaluate_run.
  destruct (vip_step_suffix conf member before after host [])
    as (s1 & Hs1 & Hc1 & Hl1).
  destruct (vip_step conf member before after host [])
    as [tr1 [[before' after']|e]]; simpl in Hs1; subst tr1.
  - destruct (forcelimit_step_suffix conf member before' after' host s1)
      as (g & ow & vc & s2 & Hs2 & Hp & Hc2 & Hcr & Hd).
    exists g, ow, vc, s1, s2. by rewrite Hs2.
  - exists 0, [], 0, s1, []. rewrite app_nil_r. split_and!; try done.
    apply prefix_nil.
Qed.

Lemma host_calls_three_cases s g ow m vc :
  host_calls s
  `prefix_of` [CreateVoiceChannel g temporary_channel_name ow; MoveTo m vc;
               ChannelDelete vc] →
  (∀ x, x ∈ omap (λ c, match c with MoveTo _ v => Some v | _ => None end)
              (host_calls s)
        ∨ x ∈ omap (λ c, match c with ChannelDelete v => Some v | _ => None end)
                (host_calls s) →
        x = vc ∧ (2 ≤ length (host_calls s))%nat)
  ∧ (length (host_calls s) ≤ 3)%nat.
Proof.
  intros [-> | [-> | [-> | ->]]]%prefix_of_three; simpl; (split; [|lia]);
    intros x [Hx|Hx]; simpl in Hx;
    repeat (apply elem_of_cons in Hx as [->|Hx]);
    try (by apply elem_of_nil in Hx); (split; [done|simpl; lia]).
Qed.

(** ** The listener: the calls of an evaluation *)

(** X10. An evaluation never moves a member into, and never deletes, a channel
    other than the temporary channel the host created for it in this very
    evaluation; and it asks for at most one such channel. *)
Theorem only_the_temporary_channel_is_deleted host conf member before after :
  (∀ vc, vc ∈ move_targets (evaluate host conf member before after).1
         ∨ vc ∈ delete_requests (evaluate host conf member before after).1 →
         vc ∈ created_channels (evaluate host conf member before after).1)
  ∧ (length (created_channels (evaluate host conf member before after).1) ≤ 1)%nat.
Proof.
  destruct (evaluate_trace host conf member before after)
    as (g & ow & vc & s1 & s2 & -> & Hc1 & _ & Hp & _ & Hcr & _).
  destruct (created_channels_of_edits s1 Hc1) as [Hcr1 _].
  destruct (host_calls_three_cases _ _ _ _ _ Hp) as [Hin _].
  unfold move_targets, delete_requests.
  rewrite created_channels_app, host_calls_app, !omap_app, Hcr1, Hcr, Hc1.
  assert (∀ (f : HostCall → option Z) l,
            (∀ p, f (edit_call p) = None) → omap f (edit_call <$> l) = [])
    as Hnone.
  { intros f l Hf. induction l as [|p l IH]; [done|]. simpl.
    by rewrite Hf. }
  rewrite !Hnone by done. simpl. split.
  - intros x Hx. destruct (Hin x Hx) as [-> ?].
    rewrite bool_decide_true by done. left.
  - case_bool_decide; simpl; lia.
Qed.

(** X12. An evaluation that ends normally leaves no temporary channel behind:
    the channel the host created, if any, has been deleted, and that
    deletion has returned. *)
Theorem normal_end_leaves_no_temporary_channel host conf member before after :
  (evaluate host conf member before after).2 = Done tt →
  deleted_channels (evaluate host conf member before after).1
  = created_channels (evaluate host conf member before after).1.
Proof.
  intros Hdone.
  destruct (evaluate_trace host conf member before after)
    as (g & ow & vc & s1 & s2 & Htr & Hc1 & _ & Hp & _ & Hcr & Hd).
  rewrite Htr. destruct (created_channels_of_edits s1 Hc1) as [Hcr1 Hdl1].
  rewrite created_channels_app, deleted_channels_app, Hcr1, Hdl1, Hcr.
  destruct (Hd Hdone) as [[-> ->]|[Hl ->]]; [done|].
  rewrite bool_decide_true by lia. done.
Qed.

Lemma normal_end_leaves_no_temporary_channel_witness :
  deleted_channels
    (evaluate obliging_host scenario_A_conf joining_member no_channel
       crowded_channel).1 = [900]
  ∧ deleted_channels
      (evaluate obliging_host scenario_A_conf joining_member no_channel
         crowded_channel).1
    = created_channels
        (evaluate obliging_host scenario_A_conf joining_member no_channel
           crowded_channel).1.
Proof.
  split; [reflexivity|].
  apply normal_end_leaves_no_temporary_channel. reflexivity.
Defined.

(** X13. With the ForceLimit module disabled every host call of an evaluation is
    a capacity edit (no channel is created, nobody is moved, nothing is
    deleted); with both modules disabled, as for a new guild, the
    evaluation makes no host call, writes no log line and ends normally. *)
Theorem disabled_modules_make_no_calls host conf member before after :
  forcelimit_enabled conf = false →
  host_calls (evaluate host conf member before after).1
  = edit_call <$> capacity_actions (evaluate host conf member before after).1
  ∧ (vip_enabled conf = false →
     evaluate host conf member before after = ([], Done tt)).
Proof.
  intros Hf. split.
  - rewrite evaluate_run.
    destruct (vip_step_suffix conf member before after host [])
      as (s1 & Hs1 & Hc1 & _).
    destruct (vip_step conf member before after host [])
      as [tr1 [[before' after']|e]]; simpl in Hs1; subst tr1; [|done].
    unfold forcelimit_step. by rewrite Hf.
  - intros Hv. rewrite evaluate_run, vip_step_idle by auto.
    unfold forcelimit_step. by rewrite Hf.
Qed.

Lemma disabled_modules_make_no_calls_witness :
  host_calls
    (evaluate obliging_host scenario_C_conf joining_member channel_X
       crowded_channel).1 = [ChannelEdit 10 4; ChannelEdit 20 4]
  ∧ evaluate obliging_host default_guild joining_member channel_X
      crowded_channel = ([], Done tt).
Proof.
  split.
  - apply (disabled_modules_make_no_calls obliging_host scenario_C_conf
             joining_member channel_X crowded_channel eq_refl).
  - by apply (disabled_modules_make_no_calls obliging_host default_guild
                joining_member channel_X crowded_channel eq_refl).
Defined.

(** The first edit of the VIP half is always attempted. *)
Lemma vip_step_first_edit conf member before after host tr a rest :
  vip_enabled conf = true → ¬ same_channel before after →
  vip_qualifies conf member →
  leave_adjustment before ++ join_adjustment after = a :: rest →
  ∃ more, capacity_actions (vip_step conf member before after host tr).1
          = capacity_actions tr ++ a :: more.
Proof.
  intros Hv Hs Hq. unfold vip_step, _vip_check. rewrite Hv.
  destruct (is_not _ _) eqn:Hn; [|by apply is_not_false in Hn].
  apply vip_test_true in Hq. rewrite Hq.
  unfold vip_leave, vip_join, leave_adjustment, join_adjustment, edit.
  destruct (channel before) as [x|], (channel after) as [y|];
    repeat case_bool_decide; simpl; try done; intros [= <- <-];
    run; rewrite ?capacity_actions_snoc; simpl;
    rewrite ?app_nil_r, <- ?(assoc_L (++)); simpl; by eexists.
Qed.

(** X14. For every host: an evaluation asks for a capacity edit if and only if
    the VIP module is enabled, the member is a VIP (by id or by a held
    role), it changes channel, and the channel left or the channel entered
    has a non-zero capacity. *)
Theorem capacity_edit_iff host conf member before after :
  capacity_actions (evaluate host conf member before after).1 ≠ []
  ↔ vip_enabled conf = true
    ∧ vip_qualifies conf member
    ∧ ¬ same_channel before after
    ∧ ((∃ x, channel before = Some x ∧ user_limit x ≠ 0)
       ∨ (∃ y, channel after = Some y ∧ user_limit y ≠ 0)).
Proof.
  rewrite evaluate_run.
  assert (∀ r : list Entry * Result (VoiceState * VoiceState),
            capacity_actions
              (match r with
               | (tr1, Done (before', after')) =>
                   forcelimit_step conf member before' after' host tr1
               | (tr1, Failed e) => (tr1, Failed e)
               end).1 = capacity_actions r.1) as Hfl.
  { intros [tr1 [[b a]|e]]; [|done].
    by destruct (forcelimit_step_capacity conf member b a host tr1) as [-> _]. }
  rewrite Hfl. clear Hfl.
  assert (leave_adjustment before ++ join_adjustment after ≠ []
          ↔ (∃ x, channel before = Some x ∧ user_limit x ≠ 0)
            ∨ (∃ y, channel after = Some y ∧ user_limit y ≠ 0)) as Hlegs.
  { unfold leave_adjustment, join_adjustment.
    destruct (channel before) as [x|], (channel after) as [y|];
      repeat case_bool_decide; simpl;
      (split;
       [intros ?; first [done | left; by eauto | right; by eauto]
       |intros [(?&?&?)|(?&?&?)]; simplify_eq; done]). }
  rewrite <- Hlegs. clear Hlegs. split.
  - intros Hne.
    destruct (vip_enabled conf) eqn:Hv;
      [|by rewrite vip_step_idle in Hne by auto].
    destruct (is_not (channel before) (channel after)) eqn:Hn;
      [|apply is_not_false in Hn; by rewrite vip_step_idle in Hne by auto].
    assert (¬ same_channel before after) as Hs.
    { intros Hs. apply is_not_false in Hs. congruence. }
    destruct (on_list (vip_member_list conf) (member_id member)
              || bool_decide (filter (λ r, on_list (vip_role_list conf) r = true)
                                (roles member) ≠ [])) eqn:Ht.
    2:{ assert (¬ vip_qualifies conf member) as Hq.
        { intros Hq. apply vip_test_true in Hq. congruence. }
        by rewrite vip_step_idle in Hne by auto. }
    apply vip_test_true in Ht. rename Ht into Hq.
    split_and!; try done. intros Hnil.
    destruct (vip_step_active conf member before after host [] Hv Hs Hq)
      as [Hpre _].
    rewrite Hnil in Hpre. simpl in Hpre. by apply prefix_nil_inv in Hpre.
  - intros (Hv & Hq & Hs & Hlegs).
    destruct (leave_adjustment before ++ join_adjustment after)
      as [|a rest] eqn:E; [done|].
    destruct (vip_step_first_edit conf member before after host [] a rest
                Hv Hs Hq E) as [more ->]. done.
Qed.

(** ** The listener: the two modules together *)

(** When the VIP half stops, it is an edit that raised. *)
Lemma vip_step_failed conf member before after host tr e :
  (vip_step conf member before after host tr).2 = Failed e →
  edit_raised (vip_step conf member before after host tr).1 = true.
Proof.
  unfold vip_step, _vip_check, vip_leave, vip_join, edit.
  destruct (vip_enabled conf); [|done].
  destruct (is_not _ _); [|done].
  destruct (_ || _); [|done].
  destruct (channel before) as [x|], (channel after) as [y|];
    repeat case_bool_decide; run; try done; intros _;
    rewrite ?edit_raised_snoc; simpl; by rewrite ?orb_true_r.
Qed.

Lemma exempted_same_id conf member c c' :
  channel_id c' = channel_id c → exempted conf member c' ↔ exempted conf member c.
Proof. unfold exempted. by intros ->. Qed.

(** X15. With both modules enabled a VIP is checked against the limit the VIP
    module has just raised: when the capacity edits return, a VIP entering
    channel [c] is force-disconnected if and only if ForceLimit is enabled,
    the channel has a capacity, its occupants exceed that capacity plus
    one, and the member is not exempted. In particular a VIP that takes a
    channel one over its capacity is not disconnected. *)
Theorem vip_is_checked_against_the_raised_limit host conf member before after c :
  vip_enabled conf = true →
  vip_qualifies conf member →
  ¬ same_channel before after →
  channel after = Some c →
  edit_raised (evaluate host conf member before after).1 = false →
  force_disconnects (evaluate host conf member before after).1 ≠ []
  ↔ forcelimit_enabled conf = true
    ∧ user_limit c ≠ 0
    ∧ user_limit c + 1 ≠ 0
    ∧ Z.of_nat (length (members c)) > user_limit c + 1
    ∧ ¬ exempted conf member c.
Proof.
  intros Hv Hq Hs Hc. rewrite evaluate_run.
  pose proof (vip_step_failed conf member before after host []) as Hfail.
  destruct (vip_step_no_disconnect conf member before after host []) as [Hd _].
  pose proof (vip_step_destination conf member before after host []) as Hdest.
  destruct (vip_step conf member before after host [])
    as [tr1 [[before' after']|e]]; simpl in Hfail, Hd;
    change (force_disconnects []) with (@nil HostCall) in Hd.
  2:{ simpl. intros Hr. rewrite (Hfail e eq_refl) in Hr. done. }
  intros _. specialize (Hdest _ _ _ eq_refl). rewrite Hc in Hdest.
  destruct (channel after') as [c'|] eqn:Hc'; [|done].
  destruct Hdest as (Hid & Hmem & Hyes & Hno).
  destruct (forcelimit_step_disconnect conf member before' after' host tr1)
    as (Happ & Hnapp & _).
  assert (forcelimit_applies conf member after'
          ↔ forcelimit_enabled conf = true
            ∧ user_limit c ≠ 0
            ∧ user_limit c + 1 ≠ 0
            ∧ Z.of_nat (length (members c)) > user_limit c + 1
            ∧ ¬ exempted conf member c) as Hiff.
  { unfold forcelimit_applies. rewrite Hc'. split.
    - intros (He & c0 & [= <-] & Hl & Hn & Hex).
      rewrite Hmem in Hn. rewrite (exempted_same_id _ _ _ _ Hid) in Hex.
      destruct (decide (user_limit c = 0)) as [H0|H0].
      + rewrite Hno in Hl by (intros (_&_&_&?); done). done.
      + rewrite Hyes in Hl, Hn by done. done.
    - intros (He & H0 & Hl & Hn & Hex). split; [done|]. exists c'.
      rewrite Hmem, (exempted_same_id _ _ _ _ Hid), Hyes by done. done. }
  rewrite <- Hiff. split.
  - intros Hne. destruct (classic_applies conf member after') as [Ha|Hna]; [done|].
    rewrite (Hnapp Hna) in Hne. simpl in Hne. by rewrite Hd in Hne.
  - intros Ha. destruct (Happ Ha) as [d ->]. by destruct (force_disconnects tr1).
Qed.

(** Member 1, a VIP, takes channel 20 to four occupants for a capacity of
    three: the capacity is raised to four and the member stays. *)
Lemma vip_is_checked_against_the_raised_limit_witness :
  capacity_actions
    (evaluate obliging_host both_enabled_conf joining_member no_channel
       crowded_channel).1 = [(20, 4)]
  ∧ (force_disconnects
       (evaluate obliging_host both_enabled_conf joining_member no_channel
          crowded_channel).1 ≠ []
     ↔ forcelimit_enabled both_enabled_conf = true
       ∧ 3 ≠ 0 ∧ 3 + 1 ≠ 0
       ∧ Z.of_nat (length [2; 3; 4; 1]) > 3 + 1
       ∧ ¬ exempted both_enabled_conf joining_member
             (mkVoiceChannel 20 3 [2; 3; 4; 1] 7 7 8)).
Proof.
  split; [reflexivity|].
  apply (vip_is_checked_against_the_raised_limit obliging_host
           both_enabled_conf joining_member no_channel crowded_channel
           (mkVoiceChannel 20 3 [2; 3; 4; 1] 7 7 8)).
  - reflexivity.
  - left. vm_compute. left.
  - unfold same_channel. simpl. tauto.
  - reflexivity.
  - reflexivity.
Defined.

(** ** The listings: unresolved ids and pages *)

Lemma content_of_None (get : Z → option Mentionable) (ids : list Z) :
  content_of get ids = None ↔ ∃ id, id ∈ ids ∧ get id = None.
Proof.
  unfold content_of. destruct (mapM get ids) as [ms|] eqn:E; simpl.
  - split; [done|]. intros (id & Hin & Hn).
    assert (mapM get ids = None) as E'
      by (apply mapM_None, Exists_exists; eauto).
    congruence.
  - split; [|done]. intros _. by apply mapM_None, Exists_exists in E.
Qed.

Lemma get_member_None g id : get_member g id = None ↔ id ∉ guild_members g.
Proof. unfold get_member. by case_bool_decide. Qed.

Lemma get_role_None g id : get_role g id = None ↔ id ∉ guild_roles g.
Proof. unfold get_role. by case_bool_decide. Qed.

Lemma get_channel_None g id : get_channel g id = None ↔ id ∉ guild_channels g.
Proof. unfold get_channel. by case_bool_decide. Qed.

(** X16. A listing command ends with [AttributeError] exactly when one of the
    lists it shows holds an id the guild does not resolve (a member that
    left, a deleted role or channel), whatever [pagify] does and whatever
    else is on the lists. *)
Theorem listing_raises_iff_unresolved (pagify : string → nat → list string)
    (embed_colour : Z) (g : Guild) (conf : GuildConf) :
  (forcelimit_ignorelist pagify embed_colour g conf = AttributeError
   ↔ (∃ id, id ∈ forcelimit_ignore_member_list conf ∧ id ∉ guild_members g)
     ∨ (∃ id, id ∈ forcelimit_ignore_role_list conf ∧ id ∉ guild_roles g)
     ∨ (∃ id, id ∈ forcelimit_ignore_vc_list conf ∧ id ∉ guild_channels g))
  ∧ (vip_list pagify embed_colour g conf = AttributeError
     ↔ (∃ id, id ∈ vip_member_list conf ∧ id ∉ guild_members g)
       ∨ (∃ id, id ∈ vip_role_list conf ∧ id ∉ guild_roles g)).
Proof.
  split.
  - transitivity
      (content_of (get_member g) (forcelimit_ignore_member_list conf) = None
       ∨ content_of (get_role g) (forcelimit_ignore_role_list conf) = None
       ∨ content_of (get_channel g) (forcelimit_ignore_vc_list conf) = None).
    + unfold forcelimit_ignorelist.
      destruct (content_of (get_member g) _) as [cm|]; [|split; auto].
      destruct (content_of (get_role g) _) as [cr|]; [|split; auto].
      destruct (content_of (get_channel g) _) as [cv|]; [|split; auto].
      destruct (_ && _); (split; [done|by intros [?|[?|?]]]).
    + rewrite !content_of_None.
      setoid_rewrite get_member_None. setoid_rewrite get_role_None.
      by setoid_rewrite get_channel_None.
  - transitivity
      (content_of (get_member g) (vip_member_list conf) = None
       ∨ content_of (get_role g) (vip_role_list conf) = None).
    + unfold vip_list.
      destruct (content_of (get_member g) _) as [cm|]; [|split; auto].
      destruct (content_of (get_role g) _) as [cr|]; [|split; auto].
      destruct (_ && _); (split; [done|by intros [?|?]]).
    + rewrite !content_of_None.
      setoid_rewrite get_member_None. by setoid_rewrite get_role_None.
Qed.

Lemma page_at_lookup fill pages i p :
  pages !! i = Some p → page_at fill pages i = p.
Proof. unfold page_at. by intros ->. Qed.

Lemma lookup_zip_longest3 fill a b c i :
  (i < (length a `max` length b) `max` length c)%nat →
  zip_longest3 fill a b c !! i
  = Some (page_at fill a i, page_at fill b i, page_at fill c i).
Proof.
  intros Hi. unfold zip_longest3.
  by rewrite list_lookup_fmap, lookup_seq_lt.
Qed.

Lemma lookup_zip_longest2 fill a b i :
  (i < length a `max` length b)%nat →
  zip_longest2 fill a b !! i = Some (page_at fill a i, page_at fill b i).
Proof.
  intros Hi. unfold zip_longest2.
  by rewrite list_lookup_fmap, lookup_seq_lt.
Qed.

Lemma ignorelist_menu_lookup (pagify : string → nat → list string)
    (embed_colour : Z) (g : Guild) (conf : GuildConf) (embed_pages : list Embed) :
  forcelimit_ignorelist pagify embed_colour g conf = Menu embed_pages →
  ∃ cm cr cv,
    content_of (get_member g) (forcelimit_ignore_member_list conf) = Some cm
    ∧ content_of (get_role g) (forcelimit_ignore_role_list conf) = Some cr
    ∧ content_of (get_channel g) (forcelimit_ignore_vc_list conf) = Some cv
    ∧ length embed_pages
      = ((length (pagify cm 1024%nat) `max` length (pagify cr 1024%nat))
           `max` length (pagify cv 1024%nat))%nat
    ∧ ∀ i, (i < length embed_pages)%nat →
           embed_pages !! i
           = Some (ignore_embed embed_colour (length embed_pages) (S i)
                     (page_at "None" (pagify cm 1024%nat) i,
                      page_at "None" (pagify cr 1024%nat) i,
                      page_at "None" (pagify cv 1024%nat) i)).
Proof.
  unfold forcelimit_ignorelist.
  destruct (content_of (get_member g) _) as [cm|]; [|done].
  destruct (content_of (get_role g) _) as [cr|]; [|done].
  destruct (content_of (get_channel g) _) as [cv|]; [|done].
  destruct (_ && _); [done|]. intros [= <-].
  exists cm, cr, cv. split_and!; try done.
  - unfold zip_longest3. by rewrite length_imap, length_fmap, length_seq.
  - intros i. rewrite length_imap. intros Hi.
    rewrite list_lookup_imap, lookup_zip_longest3; [done|].
    unfold zip_longest3 in Hi. by rewrite length_fmap, length_seq in Hi.
Qed.

Lemma vip_list_menu_lookup (pagify : string → nat → list string)
    (embed_colour : Z) (g : Guild) (conf : GuildConf) (embed_pages : list Embed) :
  vip_list pagify embed_colour g conf = Menu embed_pages →
  ∃ cm cr,
    content_of (get_member g) (vip_member_list conf) = Some cm
    ∧ content_of (get_role g) (vip_role_list conf) = Some cr
    ∧ length embed_pages
      = (length (pagify cm 1024%nat) `max` length (pagify cr 1024%nat))%nat
    ∧ ∀ i, (i < length embed_pages)%nat →
           embed_pages !! i
           = Some (vip_embed embed_colour (length embed_pages) (S i)
                     (page_at "None" (pagify cm 1024%nat) i,
                      page_at "None" (pagify cr 1024%nat) i)).
Proof.
  unfold vip_list.
  destruct (content_of (get_member g) _) as [cm|]; [|done].
  destruct (content_of (get_role g) _) as [cr|]; [|done].
  destruct (_ && _); [done|]. intros [= <-].
  exists cm, cr. split_and!; try done.
  - unfold zip_longest2. by rewrite length_imap, length_fmap, length_seq.
  - intros i. rewrite length_imap. intros Hi.
    rewrite list_lookup_imap, lookup_zip_longest2; [done|].
    unfold zip_longest2 in Hi. by rewrite length_fmap, length_seq in Hi.
Qed.

(** X17. The menu of the ignore listing loses no page: it has as many embeds as
    the category with the most pages; the i-th page of each category is on
    the i-th embed, under that category's name and in its place; and the
    i-th embed's footer reads "Page i/n" for the n embeds of the menu. *)
Theorem ignorelist_menu_shows_every_page (pagify : string → nat → list string)
    (embed_colour : Z) (g : Guild) (conf : GuildConf) (embed_pages : list Embed) :
  forcelimit_ignorelist pagify embed_colour g conf = Menu embed_pages →
  ∃ cm cr cv,
    content_of (get_member g) (forcelimit_ignore_member_list conf) = Some cm
    ∧ content_of (get_role g) (forcelimit_ignore_role_list conf) = Some cr
    ∧ content_of (get_channel g) (forcelimit_ignore_vc_list conf) = Some cv
    ∧ length embed_pages
      = ((length (pagify cm 1024%nat) `max` length (pagify cr 1024%nat))
           `max` length (pagify cv 1024%nat))%nat
    ∧ (∀ i p, pagify cm 1024%nat !! i = Some p →
              ∃ e, embed_pages !! i = Some e
                   ∧ fields e !! 0%nat = Some ("Members", p))
    ∧ (∀ i p, pagify cr 1024%nat !! i = Some p →
              ∃ e, embed_pages !! i = Some e
                   ∧ fields e !! 1%nat = Some ("Roles", p))
    ∧ (∀ i p, pagify cv 1024%nat !! i = Some p →
              ∃ e, embed_pages !! i = Some e
                   ∧ fields e !! 2%nat = Some ("Voice channels", p))
    ∧ (∀ i e, embed_pages !! i = Some e →
              footer e = page_footer (S i) (length embed_pages)).
Proof.
  intros (cm & cr & cv & Hm & Hr & Hv & Hlen & Hlook)%ignorelist_menu_lookup.
  exists cm, cr, cv. split_and!; try done.
  - intros i p Hp. pose proof (lookup_lt_Some _ _ _ Hp) as Hi.
    eexists. split; [apply Hlook; lia|]. simpl.
    by rewrite (page_at_lookup _ _ _ _ Hp).
  - intros i p Hp. pose proof (lookup_lt_Some _ _ _ Hp) as Hi.
    eexists. split; [apply Hlook; lia|]. simpl.
    by rewrite (page_at_lookup _ _ _ _ Hp).
  - intros i p Hp. pose proof (lookup_lt_Some _ _ _ Hp) as Hi.
    eexists. split; [apply Hlook; lia|]. simpl.
    by rewrite (page_at_lookup _ _ _ _ Hp).
  - intros i e He. pose proof (lookup_lt_Some _ _ _ He) as Hi.
    rewrite (Hlook i Hi) in He. by injection He as <-.
Qed.

Lemma ignorelist_menu_shows_every_page_witness :
  ∃ cm cr cv,
    content_of (get_member small_guild)
      (forcelimit_ignore_member_list conf_ignoring_1_2) = Some cm
    ∧ content_of (get_role small_guild)
        (forcelimit_ignore_role_list conf_ignoring_1_2) = Some cr
    ∧ content_of (get_channel small_guild)
        (forcelimit_ignore_vc_list conf_ignoring_1_2) = Some cv
    ∧ length [ {| title := "Ignore List"; colour := 0;
                  fields := [("Members", "<@1>, <@2>"); ("Roles", "None");
                             ("Voice channels", "None")];
                  footer := "Page 1/1" |} ]
      = ((length (pagify_short cm 1024%nat) `max` length (pagify_short cr 1024%nat))
           `max` length (pagify_short cv 1024%nat))%nat
    ∧ (∀ i p, pagify_short cm 1024%nat !! i = Some p →
              ∃ e, [ {| title := "Ignore List"; colour := 0;
                        fields := [("Members", "<@1>, <@2>"); ("Roles", "None");
                                   ("Voice channels", "None")];
                        footer := "Page 1/1" |} ] !! i = Some e
                   ∧ fields e !! 0%nat = Some ("Members", p))
    ∧ (∀ i p, pagify_short cr 1024%nat !! i = Some p →
              ∃ e, [ {| title := "Ignore List"; colour := 0;
                        fields := [("Members", "<@1>, <@2>"); ("Roles", "None");
                                   ("Voice channels", "None")];
                        footer := "Page 1/1" |} ] !! i = Some e
                   ∧ fields e !! 1%nat = Some ("Roles", p))
    ∧ (∀ i p, pagify_short cv 1024%nat !! i = Some p →
              ∃ e, [ {| title := "Ignore List"; colour := 0;
                        fields := [("Members", "<@1>, <@2>"); ("Roles", "None");
                                   ("Voice channels", "None")];
                        footer := "Page 1/1" |} ] !! i = Some e
                   ∧ fields e !! 2%nat = Some ("Voice channels", p))
    ∧ (∀ i e, [ {| title := "Ignore List"; colour := 0;
                   fields := [("Members", "<@1>, <@2>"); ("Roles", "None");
                              ("Voice channels", "None")];
                   footer := "Page 1/1" |} ] !! i = Some e →
              footer e = page_footer (S i) 1).
Proof.
  apply (ignorelist_menu_shows_every_page pagify_short 0 small_guild
           conf_ignoring_1_2).
  by vm_compute.
Defined.

(** X18. The menu of the VIP listing loses no page: it has as many embeds as
    the category with the most pages; the i-th page of members and of roles
    is on the i-th embed, under that category's name and in its place; and
    the i-th embed's footer reads "Page i/n" for the n embeds of the menu. *)
Theorem vip_list_menu_shows_every_page (pagify : string → nat → list string)
    (embed_colour : Z) (g : Guild) (conf : GuildConf) (embed_pages : list Embed) :
  vip_list pagify embed_colour g conf = Menu embed_pages →
  ∃ cm cr,
    content_of (get_member g) (vip_member_list conf) = Some cm
    ∧ content_of (get_role g) (vip_role_list conf) = Some cr
    ∧ length embed_pages
      = (length (pagify cm 1024%nat) `max` length (pagify cr 1024%nat))%nat
    ∧ (∀ i p, pagify cm 1024%nat !! i = Some p →
              ∃ e, embed_pages !! i = Some e
                   ∧ fields e !! 0%nat = Some ("Members", p))
    ∧ (∀ i p, pagify cr 1024%nat !! i = Some p →
              ∃ e, embed_pages !! i = Some e
                   ∧ fields e !! 1%nat = Some ("Roles", p))
    ∧ (∀ i e, embed_pages !! i = Some e →
              footer e = page_footer (S i) (length embed_pages)).
Proof.
  intros (cm & cr & Hm & Hr & Hlen & Hlook)%vip_list_menu_lookup.
  exists cm, cr. split_and!; try done.
  - intros i p Hp. pose proof (lookup_lt_Some _ _ _ Hp) as Hi.
    eexists. split; [apply Hlook; lia|]. simpl.
    by rewrite (page_at_lookup _ _ _ _ Hp).
  - intros i p Hp. pose proof (lookup_lt_Some _ _ _ Hp) as Hi.
    eexists. split; [apply Hlook; lia|]. simpl.
    by rewrite (page_at_lookup _ _ _ _ Hp).
  - intros i e He. pose proof (lookup_lt_Some _ _ _ He) as Hi.
    rewrite (Hlook i Hi) in He. by injection He as <-.
Qed.

Lemma vip_list_menu_shows_every_page_witness :
  ∃ cm cr,
    content_of (get_member small_guild) (vip_member_list scenario_C_conf)
    = Some cm
    ∧ content_of (get_role small_guild) (vip_role_list scenario_C_conf)
      = Some cr
    ∧ length [ {| title := "VIP List"; colour := 0;
                  fields := [("Members", "<@1>"); ("Roles", "None")];
                  footer := "Page 1/1" |} ]
      = (length (pagify_short cm 1024%nat)
           `max` length (pagify_short cr 1024%nat))%nat
    ∧ (∀ i p, pagify_short cm 1024%nat !! i = Some p →
              ∃ e, [ {| title := "VIP List"; colour := 0;
                        fields := [("Members", "<@1>"); ("Roles", "None")];
                        footer := "Page 1/1" |} ] !! i = Some e
                   ∧ fields e !! 0%nat = Some ("Members", p))
    ∧ (∀ i p, pagify_short cr 1024%nat !! i = Some p →
              ∃ e, [ {| title := "VIP List"; colour := 0;
                        fields := [("Members", "<@1>"); ("Roles", "None")];
                        footer := "Page 1/1" |} ] !! i = Some e
                   ∧ fields e !! 1%nat = Some ("Roles", p))
    ∧ (∀ i e, [ {| title := "VIP List"; colour := 0;
                   fields := [("Members", "<@1>"); ("Roles", "None")];
                   footer := "Page 1/1" |} ] !! i = Some e →
              footer e = page_footer (S i) 1).
Proof.
  apply (vip_list_menu_shows_every_page pagify_short 0 small_guild
           scenario_C_conf).
  by vm_compute.
Defined.

(** ** Commands and the listener together *)

(** X19. Once an ignore command has named the member, a role the member holds or
    the channel entered, an evaluation of the event starts no forced
    disconnect and moves nobody, whatever else is configured and whatever
    the host does. *)
Theorem ignored_target_is_never_disconnected host conf ignores t member
    before after :
  t ∈ ignores →
  ignore_covers t member after →
  force_disconnects
    (evaluate host (forcelimit_add conf ignores).1 member before after).1 = []
  ∧ moved_members
      (evaluate host (forcelimit_add conf ignores).1 member before after).1 = [].
Proof.
  intros Ht Hcov. rewrite evaluate_run.
  assert (∀ k, k = ignore_category t →
               ignore_id t ∈ get_list k (forcelimit_add conf ignores).1) as Hin.
  { intros k ->. rewrite forcelimit_add_lists.
    apply add_ids_elem, elem_of_ignore_ids. eauto. }
  generalize dependent (forcelimit_add conf ignores).1. intros conf' Hin.
  destruct (vip_step_no_disconnect conf' member before after host []) as [Hd Hm].
  pose proof (vip_step_destination conf' member before after host []) as Hdest.
  destruct (vip_step conf' member before after host [])
    as [tr1 [[before' after']|e]]; simpl in Hd, Hm;
    change (force_disconnects []) with (@nil HostCall) in Hd;
    change (moved_members []) with (@nil Z) in Hm; [|done].
  destruct (forcelimit_step_disconnect conf' member before' after' host tr1)
    as (_ & Hno & _).
  rewrite Hno; [done|]. intros (_ & c' & Hc' & _ & _ & Hex). apply Hex.
  specialize (Hdest _ _ _ eq_refl). unfold exempted.
  destruct t as [id s|id s|id s]; simpl in Hcov.
  - left. subst id. by apply (Hin IgnoreMembers).
  - right; left. exists id. split; [done|]. by apply (Hin IgnoreRoles).
  - right; right. destruct Hcov as (c & Hc & <-).
    rewrite Hc, Hc' in Hdest. destruct Hdest as [-> _].
    by apply (Hin IgnoreVoiceChannels).
Qed.

Lemma ignored_target_is_never_disconnected_witness :
  force_disconnects
    (evaluate obliging_host scenario_A_conf joining_member no_channel
       crowded_channel).1
  = [CreateVoiceChannel 7 temporary_channel_name [(7, false); (8, true)]]
  ∧ force_disconnects
      (evaluate obliging_host
         (forcelimit_add scenario_A_conf
            [IgnoreMember 9 "nine"; IgnoreVoiceChannel 20 "busy"]).1
         joining_member no_channel crowded_channel).1 = []
  ∧ moved_members
      (evaluate obliging_host
         (forcelimit_add scenario_A_conf
            [IgnoreMember 9 "nine"; IgnoreVoiceChannel 20 "busy"]).1
         joining_member no_channel crowded_channel).1 = [].
Proof.
  split; [reflexivity|].
  apply (ignored_target_is_never_disconnected obliging_host scenario_A_conf
           [IgnoreMember 9 "nine"; IgnoreVoiceChannel 20 "busy"]
           (IgnoreVoiceChannel 20 "busy")).
  - right; left.
  - simpl. eexists. split; reflexivity.
Defined.

(** X20. Once a VIP command has named the member or a role the member holds,
    and with the VIP module enabled, a change of channel by the member has
    its capacity adjustments made: all of them, in order, when the edits
    return. *)
Theorem added_vip_gets_its_adjustments host conf vips t member before after :
  t ∈ vips →
  vip_covers t member →
  vip_enabled conf = true →
  ¬ same_channel before after →
  edit_raised (evaluate host (vip_add conf vips).1 member before after).1
  = false →
  capacity_actions (evaluate host (vip_add conf vips).1 member before after).1
  = leave_adjustment before ++ join_adjustment after.
Proof.
  intros Ht Hcov Hv Hs.
  assert (vip_qualifies (vip_add conf vips).1 member) as Hq.
  { assert (vip_id t ∈ get_list (vip_category t) (vip_add conf vips).1) as Hin.
    { rewrite vip_add_lists. apply add_ids_elem, elem_of_vip_ids. eauto. }
    unfold vip_qualifies. destruct t as [id s|id s]; simpl in Hcov, Hin.
    - left. by subst id.
    - right. eauto. }
  assert (vip_enabled (vip_add conf vips).1 = true) as Hv' by done.
  generalize dependent (vip_add conf vips).1. intros conf' Hq Hv'.
  rewrite evaluate_run.
  pose proof (vip_step_active conf' member before after host [] Hv' Hs Hq)
    as [_ Heq].
  destruct (vip_step _ _ _ _ _ _) as [tr1 [[before' after']|e]]; [|done].
  destruct (forcelimit_step_capacity conf' member before' after' host tr1)
    as [-> ->]. done.
Qed.

Lemma added_vip_gets_its_adjustments_witness :
  capacity_actions
    (evaluate obliging_host scenario_A_conf joining_member channel_X channel_Y).1
  = []
  ∧ capacity_actions
      (evaluate obliging_host
         (vip_add (vip_enable scenario_A_conf).1 [VipRole 50 "friends"]).1
         joining_member channel_X channel_Y).1
    = [(10, 4); (20, 6)].
Proof.
  split; [reflexivity|].
  apply (added_vip_gets_its_adjustments obliging_host
           (vip_enable scenario_A_conf).1 [VipRole 50 "friends"]
           (VipRole 50 "friends") joining_member channel_X channel_Y).
  - left.
  - simpl. left.
  - reflexivity.
  - unfold same_channel. simpl. lia.
  - reflexivity.
Defined.

(** ** The listener: what it logs *)

Lemma vip_step_logs conf member before after host tr :
  (length (log_lines (vip_step conf member before after host tr).1)
   + length (returned_edits tr)
   = length (log_lines tr)
     + length (returned_edits (vip_step conf member before after host tr).1))%nat
  ∧ deleted_channels (vip_step conf member before after host tr).1
    = deleted_channels tr.
Proof.
  unfold vip_step, _vip_check, vip_leave, vip_join, edit.
  destruct (vip_enabled conf); [|done].
  destruct (is_not _ _); [|done].
  destruct (_ || _); [|done].
  unfold log_lines, returned_edits, deleted_channels.
  destruct (channel before) as [x|], (channel after) as [y|];
    repeat case_bool_decide; run; rewrite ?omap_app, ?length_app; simpl;
    rewrite ?app_nil_r; (split; [lia|done]).
Qed.

Lemma forcelimit_step_logs conf member before after host tr :
  (length (log_lines (forcelimit_step conf member before after host tr).1)
   + length (deleted_channels tr)
   = length (log_lines tr)
     + length (deleted_channels
                 (forcelimit_step conf member before after host tr).1))%nat
  ∧ returned_edits (forcelimit_step conf member before after host tr).1
    = returned_edits tr.
Proof.
  unfold forcelimit_step, _forcelimit_check.
  destruct (forcelimit_enabled conf); [|done].
  destruct (channel after) as [c|]; [|done].
  destruct (over_limit c); [|done].
  destruct (ignored conf member c); [done|].
  unfold log_lines, returned_edits, deleted_channels.
  run; rewrite ?omap_app, ?length_app; simpl;
    rewrite ?app_nil_r; (split; [lia|done]).
Qed.

(** X21. The listener logs what has happened, never what was only attempted: an
    evaluation writes one log line for each capacity edit that returned and
    one for each forced disconnect whose last call, the deletion of the
    temporary channel, returned; it writes no other line. *)
Theorem one_log_line_per_completed_action host conf member before after :
  length (log_lines (evaluate host conf member before after).1)
  = (length (returned_edits (evaluate host conf member before after).1)
     + length (deleted_channels (evaluate host conf member before after).1))%nat.
Proof.
  rewrite evaluate_run.
  destruct (vip_step_logs conf member before after host []) as [Hl Hd].
  destruct (vip_step conf member before after host [])
    as [tr1 [[before' after']|e]]; simpl in Hl, Hd.
  - destruct (forcelimit_step_logs conf member before' after' host tr1)
      as [Hl' ->].
    rewrite Hd in Hl'. simpl in Hl'. lia.
  - simpl. rewrite Hd. simpl. lia.
Qed.

(** ** The listener: ForceLimit without a change of channel *)

(** X22. The ForceLimit check does not ask where the member was: when the
    VIP half does not apply (the update changes no channel, as a mute or a
    deafen, or the VIP module is disabled, or the member is no VIP), a
    forced disconnect is started if and only if ForceLimit is enabled and
    the channel the member is in after the update is limited, over its
    limit and not exempted. So a member that mutes itself in a channel over
    its limit is disconnected. *)
Theorem forcelimit_checks_every_update host conf member before after :
  same_channel before after ∨ vip_enabled conf = false
  ∨ ¬ vip_qualifies conf member →
  force_disconnects (evaluate host conf member before after).1 ≠ []
  ↔ forcelimit_applies conf member after.
Proof.
  intros Hidle. rewrite evaluate_run, vip_step_idle by tauto.
  destruct (forcelimit_step_disconnect conf member before after host [])
    as (Hyes & Hno & _).
  split.
  - intros Hne. destruct (classic_applies conf member after) as [Ha|Hna]; [done|].
    by rewrite (Hno Hna) in Hne.
  - intros Ha. destruct (Hyes Ha) as [d ->].
    by destruct (force_disconnects []).
Qed.

(** Member 1 mutes itself in channel 20, which holds four members for a
    capacity of three. *)
Lemma forcelimit_checks_every_update_witness :
  force_disconnects
    (evaluate obliging_host scenario_A_conf joining_member crowded_channel
       crowded_channel).1
  = [CreateVoiceChannel 7 temporary_channel_name [(7, false); (8, true)]]
  ∧ (force_disconnects
       (evaluate obliging_host scenario_A_conf joining_member crowded_channel
          crowded_channel).1 ≠ []
     ↔ forcelimit_applies scenario_A_conf joining_member crowded_channel).
Proof.
  split; [reflexivity|].
  apply (forcelimit_checks_every_update obliging_host scenario_A_conf
           joining_member crowded_channel crowded_channel).
  left. reflexivity.
Defined.

(** ** The forced disconnect, call by call *)

Lemma edit_raised_raised tr : edit_raised tr = true → raised tr = true.
Proof.
  unfold edit_raised, raised.
  induction tr as [|[c [v|e]|msg] tr IH]; simpl; try done.
  destruct c; simpl; auto.
Qed.

Lemma raised_app tr s : raised (tr ++ s) = raised tr || raised s.
Proof. apply existsb_app. Qed.

Lemma disconnect_calls_app tr s :
  disconnect_calls (tr ++ s) = disconnect_calls tr ++ disconnect_calls s.
Proof. unfold disconnect_calls. by rewrite host_calls_app, filter_app. Qed.

Lemma disconnect_calls_of_edits s :
  host_calls s = edit_call <$> capacity_actions s → disconnect_calls s = [].
Proof.
  unfold disconnect_calls. intros ->.
  induction (capacity_actions s) as [|p l IH]; [done|].
  rewrite fmap_cons, filter_cons. by destruct (decide _).
Qed.

Lemma disconnect_calls_of_prefix l member c vc :
  l `prefix_of` force_disconnect member c vc →
  filter (λ c, is_edit c = false) l = l.
Proof. by intros [-> | [-> | [-> | ->]]]%prefix_of_three. Qed.

(** What the VIP half leaves of the destination, when it ends normally:
    the channel of the event with the limit [_forcelimit_check] will
    read. *)
Lemma vip_step_destination_exact conf member before after host tr tr1
    before' after' :
  vip_step conf member before after host tr = (tr1, Done (before', after')) →
  match channel after, channel after' with
  | None, None => True
  | Some c, Some c' =>
      channel_id c' = channel_id c ∧ members c' = members c
      ∧ guild_id c' = guild_id c ∧ default_role c' = default_role c
      ∧ me c' = me c
      ∧ user_limit c' = limit_when_checked conf member before after c
  | _, _ => False
  end.
Proof.
  unfold vip_step, _vip_check, limit_when_checked, is_vip.
  destruct (vip_enabled conf); simpl;
    [|intros [= <- <- <-]; by destruct (channel after)].
  destruct (is_not _ _); simpl;
    [|intros [= <- <- <-]; by destruct (channel after)].
  destruct (_ || _); simpl;
    [|intros [= <- <- <-]; by destruct (channel after)].
  unfold vip_leave, vip_join, edit.
  destruct (channel before) as [x|], (channel after) as [y|] eqn:Ha;
    repeat case_bool_decide; run; intros [= <- <- <-]; simpl;
    rewrite ?Ha; done.
Qed.

(** The calls of the ForceLimit half when it applies. *)
Lemma forcelimit_step_calls conf member before after host tr c :
  forcelimit_applies conf member after → channel after = Some c →
  ∃ vc s,
    (forcelimit_step conf member before after host tr).1 = tr ++ s
    ∧ host_calls s `prefix_of` force_disconnect member c vc
    ∧ host_calls s ≠ []
    ∧ ((2 ≤ length (host_calls s))%nat → created_channels s = [vc])
    ∧ (raised s = false →
       host_calls s = force_disconnect member c vc
       ∧ created_channels s = [vc]).
Proof.
  intros (He & c' & Hc' & Hl & Hn & Hex) Hc.
  rewrite Hc in Hc'. injection Hc' as <-.
  unfold forcelimit_step, _forcelimit_check, force_disconnect.
  rewrite He, Hc.
  assert (over_limit c = true) as -> by (by apply over_limit_true).
  destruct (ignored conf member c) eqn:Hi; [by apply ignored_true in Hi|].
  destruct (host tr (CreateVoiceChannel (guild_id c) temporary_channel_name
                       [(default_role c, false); (me c, true)]))
    as [vc|e] eqn:Hcreate.
  - exists vc.
    run; simplify_eq; rewrite <- ?(assoc_L (++)); simpl;
      (eexists; split; [reflexivity|]); simpl; split_and!; try done;
      try (by eexists); intros; lia.
  - exists 0.
    run; simplify_eq; rewrite <- ?(assoc_L (++)); simpl;
      (eexists; split; [reflexivity|]); simpl; split_and!; try done;
      try (by eexists); intros; lia.
Qed.

Lemma forcelimit_due_applies conf member before after after' c c' :
  channel after = Some c → channel after' = Some c' →
  channel_id c' = channel_id c → members c' = members c →
  user_limit c' = limit_when_checked conf member before after c →
  forcelimit_applies conf member after'
  ↔ forcelimit_due conf member before after.
Proof.
  intros Hc Hc' Hid Hm Hl. unfold forcelimit_applies, forcelimit_due.
  rewrite Hc, Hc'. split.
  - intros (He & c0 & [= <-] & H0 & Hn & Hex). split; [done|]. exists c.
    rewrite <- Hl, <- Hm. split_and!; try done.
    by rewrite <- (exempted_same_id _ _ _ _ Hid).
  - intros (He & c0 & [= <-] & H0 & Hn & Hex). split; [done|]. exists c'.
    rewrite Hl, Hm. split_and!; try done.
    by rewrite (exempted_same_id _ _ _ _ Hid).
Qed.

(** The whole evaluation, by the two halves: the edits of the VIP half,
    then, if the VIP half ended normally and the condition of a forced
    disconnect holds, the calls of that disconnect. *)
Lemma evaluate_disconnect host conf member before after :
  ∃ s1 s2,
    (evaluate host conf member before after).1 = s1 ++ s2
    ∧ host_calls s1 = edit_call <$> capacity_actions s1
    ∧ (length (capacity_actions s1) ≤ 2)%nat
    ∧ capacity_actions s2 = []
    ∧ (s2 = []
       ∨ forcelimit_due conf member before after
         ∧ ∃ c vc, channel after = Some c
             ∧ host_calls s2 `prefix_of` force_disconnect member c vc
             ∧ host_calls s2 ≠ []
             ∧ ((2 ≤ length (host_calls s2))%nat → created_channels s2 = [vc]))
    ∧ (raised (evaluate host conf member before after).1 = false →
       forcelimit_due conf member before after →
       ∃ c vc, channel after = Some c
               ∧ host_calls s2 = force_disconnect member c vc
               ∧ created_channels s2 = [vc]).
Proof.
  rewrite evaluate_run.
  destruct (vip_step_suffix conf member before after host [])
    as (s1 & Hs1 & Hc1 & Hl1).
  pose proof (vip_step_failed conf member before after host []) as Hfail.
  pose proof (vip_step_destination_exact conf member before after host [])
    as Hdest.
  destruct (vip_step conf member before after host [])
    as [tr1 [[before' after']|e]]; simpl in Hs1, Hfail; subst tr1.
  2:{ exists s1, []. rewrite app_nil_r. split_and!; try done; [by left|].
      simpl. intros Hr.
      by rewrite (edit_raised_raised _ (Hfail e eq_refl)) in Hr. }
  specialize (Hdest _ _ _ eq_refl).
  destruct (forcelimit_step_capacity conf member before' after' host s1)
    as [Hcap _].
  destruct (forcelimit_step_disconnect conf member before' after' host s1)
    as (_ & Hno & _).
  destruct (classic_applies conf member after') as [Ha|Hna].
  2:{ exists s1, []. rewrite (Hno Hna), app_nil_r.
      split_and!; try done; [by left|].
      simpl. intros _ Hdue. exfalso. apply Hna.
      destruct Hdue as (He & c & Hc & Hdue). rewrite Hc in Hdest.
      destruct (channel after') as [c'|] eqn:Hc'; [|done].
      destruct Hdest as (Hid & Hm & _ & _ & _ & Hl).
      apply (forcelimit_due_applies conf member before after after' c c');
        try done.
      split; [done|]. by exists c. }
  assert (∃ c', channel after' = Some c') as [c' Hc']
    by (destruct Ha as (_ & c' & ? & _); eauto).
  rewrite Hc' in Hdest.
  destruct (channel after) as [c|] eqn:Hc; [|done].
  destruct Hdest as (Hid & Hm & Hg & Hd & Hme & Hl).
  assert (forcelimit_due conf member before after) as Hdue.
  { apply (forcelimit_due_applies conf member before after after' c c');
      done. }
  destruct (forcelimit_step_calls conf member before' after' host s1 c' Ha Hc')
    as (vc & s2 & Hs2 & Hp & Hne & Hcr & Hall).
  assert (force_disconnect member c' vc = force_disconnect member c vc) as Hfd
    by (unfold force_disconnect; by rewrite Hg, Hd, Hme).
  rewrite Hfd in Hp, Hall.
  exists s1, s2. rewrite Hs2 in *. split_and!; try done.
  - rewrite capacity_actions_app in Hcap.
    by apply (inj (capacity_actions s1 ++.)); rewrite app_nil_r.
  - right. split; [done|]. by exists c, vc.
  - simpl. rewrite raised_app. intros [_ Hr]%orb_false_iff _.
    exists c, vc. by destruct (Hall Hr).
Qed.

(** C2, amended. For every event, configuration and host. The forced
    disconnect of the source is three host calls: create the temporary
    channel, move the joining member into the channel the host returned,
    delete that channel. The condition is [forcelimit_due]: ForceLimit is
    enabled and there is a destination channel whose capacity, as
    [_forcelimit_check] reads it (the capacity of the event, raised by one
    when the VIP half has adjusted the destination), is non-zero and
    exceeded by the occupant count, and the member is not exempted by id, by
    a held role or by the channel.
    - Calls of a forced disconnect are made only under the condition; they
      are a beginning of the one disconnect of the joining member, and
      from the move on they name the channel the host created.
    - When no host call raises, calls of a forced disconnect are made if
      and only if the condition holds, and then they are exactly the three
      calls of one disconnect of the joining member, through the channel
      the host created.
    - When the member id is on the ignore-member list, no call of a forced
      disconnect is made. *)
Theorem force_disconnect_iff host conf member before after :
  (disconnect_calls (evaluate host conf member before after).1 ≠ [] →
   forcelimit_due conf member before after
   ∧ ∃ c vc,
       channel after = Some c
       ∧ disconnect_calls (evaluate host conf member before after).1
         `prefix_of` force_disconnect member c vc
       ∧ ((2 ≤ length (disconnect_calls
                         (evaluate host conf member before after).1))%nat →
          created_channels (evaluate host conf member before after).1 = [vc]))
  ∧ (raised (evaluate host conf member before after).1 = false →
     (disconnect_calls (evaluate host conf member before after).1 ≠ []
      ↔ forcelimit_due conf member before after)
     ∧ (forcelimit_due conf member before after →
        ∃ c vc,
          channel after = Some c
          ∧ created_channels (evaluate host conf member before after).1 = [vc]
          ∧ disconnect_calls (evaluate host conf member before after).1
            = force_disconnect member c vc))
  ∧ (member_id member ∈ forcelimit_ignore_member_list conf →
     disconnect_calls (evaluate host conf member before after).1 = []).
Proof.
  destruct (evaluate_disconnect host conf member before after)
    as (s1 & s2 & Htr & Hc1 & _ & _ & Hs2 & Hall).
  rewrite Htr in *. clear Htr.
  destruct (created_channels_of_edits s1 Hc1) as [Hcr1 _].
  rewrite disconnect_calls_app, created_channels_app, Hcr1,
    (disconnect_calls_of_edits s1 Hc1). simpl.
  assert (disconnect_calls s2 ≠ [] →
          forcelimit_due conf member before after
          ∧ ∃ c vc,
              channel after = Some c
              ∧ disconnect_calls s2 `prefix_of` force_disconnect member c vc
              ∧ ((2 ≤ length (disconnect_calls s2))%nat →
                 created_channels s2 = [vc])) as Honly.
  { intros Hne. destruct Hs2 as [->|(Hdue & c & vc & Hc & Hp & _ & Hcr)];
      [done|].
    split; [done|]. exists c, vc. unfold disconnect_calls.
    by rewrite (disconnect_calls_of_prefix _ _ _ _ Hp). }
  assert (raised (s1 ++ s2) = false →
          forcelimit_due conf member before after →
          ∃ c vc,
            channel after = Some c
            ∧ created_channels s2 = [vc]
            ∧ disconnect_calls s2 = force_disconnect member c vc) as Hwhole.
  { intros Hr Hdue. destruct (Hall Hr Hdue) as (c & vc & Hc & Hcalls & Hcr).
    exists c, vc. unfold disconnect_calls. by rewrite Hcalls. }
  split_and!.
  - exact Honly.
  - intros Hr. split; [|by apply Hwhole]. split.
    + by intros [? _]%Honly.
    + intros Hdue. by destruct (Hwhole Hr Hdue) as (c & vc & _ & _ & ->).
  - intros Hin. destruct (disconnect_calls s2) eqn:E; [done|].
    destruct Honly as [(_ & c & _ & _ & _ & Hex) _]; [done|].
    exfalso. apply Hex. by left.
Qed.

(** Scenario A on a host where every call returns: the three calls of one
    forced disconnect of member 1, through channel 900. *)
Lemma force_disconnect_iff_witness :
  disconnect_calls
    (evaluate obliging_host scenario_A_conf joining_member no_channel
       crowded_channel).1
  = [CreateVoiceChannel 7 temporary_channel_name [(7, false); (8, true)];
     MoveTo 1 900; ChannelDelete 900]
  ∧ (disconnect_calls
       (evaluate obliging_host scenario_A_conf joining_member no_channel
          crowded_channel).1 ≠ []
     ↔ forcelimit_due scenario_A_conf joining_member no_channel
         crowded_channel).
Proof.
  split; [reflexivity|].
  destruct (force_disconnect_iff obliging_host scenario_A_conf joining_member
              no_channel crowded_channel) as (_ & Hret & _).
  apply Hret. reflexivity.
Defined.

(** C2, as stated, fails for a VIP. Both modules are enabled, nothing is
    ignored, and member 1, a VIP, enters channel 20, which then holds four
    members for a capacity of three: the condition of the claim holds of
    the event, every call returns, and the only host call is the edit that
    raises the capacity to four. No forced disconnect is made. *)
Lemma vip_over_the_limit_is_not_disconnected :
  forcelimit_applies both_enabled_conf joining_member crowded_channel
  ∧ evaluate obliging_host both_enabled_conf joining_member no_channel
      crowded_channel
    = ([Called (ChannelEdit 20 4) (Returned 0);
        LogInfo ("VIP with ID 1 (member) left voice channel with ID 20, "
                 +:+ "raising user limit!")],
       Done tt)
  ∧ disconnect_calls
      (evaluate obliging_host both_enabled_conf joining_member no_channel
         crowded_channel).1 = [].
Proof.
  split_and!; [|by vm_compute|by vm_compute].
  split; [done|]. eexists. split; [reflexivity|]. simpl.
  split_and!; [lia|lia|].
  intros [H|[(r & _ & H)|H]]; vm_compute in H; by apply elem_of_nil in H.
Qed.

(** ** The calls of an evaluation, in order *)

(** X11. The calls of an evaluation, in order: its capacity edits (at most
    two), then nothing, or a beginning of the forced disconnect of the
    event's member from the channel entered: the request for the temporary
    channel in that channel's guild, the move of the member into the
    channel the host created, the deletion of that same channel. Five
    calls at most, and no capacity edit once the forced disconnect has
    begun. *)
Theorem calls_of_an_evaluation host conf member before after :
  ∃ fd,
    host_calls (evaluate host conf member before after).1
    = (edit_call <$> capacity_actions (evaluate host conf member before after).1)
      ++ fd
    ∧ (length (capacity_actions (evaluate host conf member before after).1) ≤ 2)%nat
    ∧ (length (host_calls (evaluate host conf member before after).1) ≤ 5)%nat
    ∧ (fd = []
       ∨ ∃ c vc,
           channel after = Some c
           ∧ fd `prefix_of` force_disconnect member c vc
           ∧ ((2 ≤ length fd)%nat →
              created_channels (evaluate host conf member before after).1
              = [vc])).
Proof.
  destruct (evaluate_disconnect host conf member before after)
    as (s1 & s2 & -> & Hc1 & Hl1 & Hc2 & Hs2 & _).
  destruct (created_channels_of_edits s1 Hc1) as [Hcr1 _].
  exists (host_calls s2).
  rewrite host_calls_app, capacity_actions_app, created_channels_app,
    Hc2, Hcr1, app_nil_r, Hc1, length_app, length_fmap. simpl.
  destruct Hs2 as [->|(_ & c & vc & Hc & Hp & _ & Hcr)].
  - split_and!; [done|done|simpl; lia|by left].
  - split_and!; [done|done| |right; by exists c, vc].
    apply prefix_length in Hp. simpl in Hp. lia.
Qed.
